(** * TFX: placeholder expressions, output resolution and pipeline compilation

    A shallow embedding of
    - [tfx/dsl/placeholder/placeholder.py]  (module [Placeholder]),
    - [tfx/orchestration/portable/outputs_utils.py]  (module [OutputsUtils]),
    - the graph compiler exercised by [tfx/dsl/compiler/compiler_test.py]
      (module [Compiler]),
    followed by the properties of each. *)

From Stdlib Require Import ZArith String Ascii List DecimalString DecimalZ DecimalPos Lia.
From stdpp Require Import gmap strings list fin_maps.

Open Scope string_scope.
Open Scope list_scope.
Set Warnings "-register-all".

(* ===================================================================== *)
(** * Placeholders ([placeholder.py]) *)
(* ===================================================================== *)

Module Placeholder.

(** [placeholder_pb2.Placeholder.Type]. *)
Inductive PlaceholderType := INPUT_ARTIFACT | OUTPUT_ARTIFACT | EXEC_PROPERTY.

(** [placeholder_pb2.PlaceholderExpression]: the [oneof] of a literal
    [value], a [placeholder] leaf and an [operator]; the operator is itself a
    [oneof] of the five [*_op] messages.  An unset [split] is the empty
    string.  Messages are values: every [encode] below builds its result
    from messages it has just created ([CopyFrom] and the repeated field's
    [append]/[extend] copy their argument), so no message is reachable from
    two places. *)
Inductive PlaceholderExpression :=
| value (string_value : string)
| placeholder (type : PlaceholderType) (key : string)
| artifact_uri_op (expression : PlaceholderExpression) (split : string)
| artifact_value_op (expression : PlaceholderExpression)
| index_op (expression : PlaceholderExpression) (index : Z)
| concat_op (expressions : list PlaceholderExpression)
| proto_op (expression : PlaceholderExpression) (proto_field_path : string).

(** Placeholder objects live in a store and are named by their address:
    every builder method mutates [self] and returns [self], and
    [_ConcatOperator] keeps a reference to its operand, not a copy. *)
Abbreviation ref := nat.

(** [Union[str, 'Placeholder']]. *)
Inductive operand :=
| Str (s : string)
| Ref (r : ref).

(** The subclasses of [_PlaceholderOperator], with their fields. *)
Inductive operator :=
| _ArtifactUriOperator (_split : string)
| _ArtifactValueOperator
| _IndexOperator (_index : Z)
| _ConcatOperator (_other : operand)
| _ProtoOperator (_proto_field_path : string).

(** The two concrete subclasses of [Placeholder]. *)
Inductive placeholder_class := ArtifactPlaceholder | ExecPropertyPlaceholder.

Record PlaceholderObj := mkPlaceholder {
  cls : placeholder_class;
  _operators : list operator;
  _type : PlaceholderType;
  _key : string
}.

(** The object store: address [r] holds [h !! r]. *)
Abbreviation heap := (list PlaceholderObj).

(** ** Construction: [input], [output], [exec_property] *)

Definition new_placeholder (c : placeholder_class) (t : PlaceholderType)
    (key : string) (h : heap) : ref * heap :=
  (List.length h, h ++ [mkPlaceholder c [] t key]).

Definition input (key : string) : heap -> ref * heap :=
  new_placeholder ArtifactPlaceholder INPUT_ARTIFACT key.

Definition output (key : string) : heap -> ref * heap :=
  new_placeholder ArtifactPlaceholder OUTPUT_ARTIFACT key.

Definition exec_property (key : string) : heap -> ref * heap :=
  new_placeholder ExecPropertyPlaceholder EXEC_PROPERTY key.

(** ** Builder methods.  Each returns [self]; only the store changes. *)

Definition set_operators (ops : list operator) (p : PlaceholderObj) : PlaceholderObj :=
  mkPlaceholder (cls p) ops (_type p) (_key p).

(** [self._operators.append(op)]. *)
Definition append_operator (op : operator) (self : ref) (h : heap) : heap :=
  alter (fun p => set_operators (_operators p ++ [op]) p) self h.

(** [Placeholder.__getitem__]. *)
Definition __getitem__ (self : ref) (key : Z) : heap -> heap :=
  append_operator (_IndexOperator key) self.

(** [Placeholder.__add__]. *)
Definition __add__ (self : ref) (other : operand) : heap -> heap :=
  append_operator (_ConcatOperator other) self.

(** [ArtifactPlaceholder.uri]. *)
Definition uri (self : ref) : heap -> heap :=
  append_operator (_ArtifactUriOperator "") self.

(** [ArtifactPlaceholder.split_uri]. *)
Definition split_uri (self : ref) (split : string) : heap -> heap :=
  append_operator (_ArtifactUriOperator split) self.

(** [ArtifactPlaceholder.value]. *)
Definition value_ (self : ref) : heap -> heap :=
  append_operator _ArtifactValueOperator self.

(** [_ProtoOperator.append_field_path]. *)
Definition append_field_path (path extra_path : string) : string :=
  path +:+ "." +:+ extra_path.

(** [ExecPropertyPlaceholder.__getattr__]: the last operator is mutated in
    place when it is a [_ProtoOperator], otherwise a new one is appended. *)
Definition getattr_operators (field_name : string) (ops : list operator) : list operator :=
  match last ops with
  | Some (_ProtoOperator path) =>
      removelast ops ++ [_ProtoOperator (append_field_path path field_name)]
  | _ => ops ++ [_ProtoOperator field_name]
  end.

Definition __getattr__ (self : ref) (field_name : string) (h : heap) : heap :=
  alter (fun p => set_operators (getattr_operators field_name (_operators p)) p) self h.

(** ** The index field of the message

    Modelled from the spec: [placeholder_pb2], the message classes, are
    generated from a definition that is not among the sources, and the spec
    gives [Index(i)] no width.  [_IndexOperator.encode] assigns the index
    to the integer field [index] of the [IndexOperator] message, and
    assigning an integer that a field does not hold raises [ValueError];
    which integers the field holds is the parameter [index_in_range]. *)
Class IndexField := { index_in_range : Z -> bool }.

(** A signed 32-bit field, the instance the examples are evaluated with. *)
Definition int32_index : IndexField :=
  {| index_in_range := fun i => (- 2 ^ 31 <=? i)%Z && (i <? 2 ^ 31)%Z |}.

(** ** Encoding

    [encode] reads the store and, for a placeholder operand, calls the
    operand's own [encode].  The store is threaded through every call so
    that what [encode] leaves behind can be stated; [None] stands for a
    call that does not return an expression: it raises ([RecursionError]
    when the recursion bound is exhausted, as Python's is, [ValueError] for
    an index the field does not hold), or the address is not allocated. *)

Definition M (A : Type) : Type := heap -> option A * heap.

#[global] Instance M_ret : MRet M := fun A a h => (Some a, h).
#[global] Instance M_bind : MBind M := fun A B f m h =>
  match m h with
  | (Some a, h') => f a h'
  | (None, h') => (None, h')
  end.

Definition raise {A} : M A := fun h => (None, h).
Definition lookup_obj (r : ref) : M PlaceholderObj := fun h => (h !! r, h).

Section encoding.
Context {index_field : IndexField}.

Section operators.
(** [Placeholder.encode] of the operand, one level of recursion down. *)
Variable encode_rec : ref -> M PlaceholderExpression.

(** [_PlaceholderOperator.encode], by subclass. *)
Definition operator_encode (op : operator) (sub_expression_pb : PlaceholderExpression)
    : M PlaceholderExpression :=
  match op with
  | _ArtifactUriOperator split => mret (artifact_uri_op sub_expression_pb split)
  | _ArtifactValueOperator => mret (artifact_value_op sub_expression_pb)
  | _IndexOperator index =>
      if index_in_range index then mret (index_op sub_expression_pb index) else raise
  | _ConcatOperator other =>
      other_expression_pb ←
        match other with
        | Ref other_expression => encode_rec other_expression
        | Str s => mret (value s)
        end;
      match sub_expression_pb with
      | concat_op expressions => mret (concat_op (expressions ++ [other_expression_pb]))
      | _ => mret (concat_op [sub_expression_pb; other_expression_pb])
      end
  | _ProtoOperator path => mret (proto_op sub_expression_pb path)
  end.

(** [for op in self._operators: expression_pb = op.encode(expression_pb)]. *)
Fixpoint encode_operators (ops : list operator) (expression_pb : PlaceholderExpression)
    : M PlaceholderExpression :=
  match ops with
  | [] => mret expression_pb
  | op :: ops' =>
      expression_pb' ← operator_encode op expression_pb;
      encode_operators ops' expression_pb'
  end.
End operators.

(** [Placeholder.encode]. *)
Fixpoint encode (fuel : nat) (self : ref) : M PlaceholderExpression :=
  match fuel with
  | O => raise
  | S fuel' =>
      p ← lookup_obj self;
      encode_operators (encode fuel') (_operators p) (placeholder (_type p) (_key p))
  end.


(** An operand is a string or a placeholder that exists. *)
Definition valid_operand (h : heap) (o : operand) : Prop :=
  match o with
  | Str _ => True
  | Ref r => r < List.length h
  end.

(** The object at [r] is an instance of class [c]. *)
Definition has_class (h : heap) (r : ref) (c : placeholder_class) : Prop :=
  exists p, h !! r = Some p /\ cls p = c.

(** The stores a program can reach with the public constructors and the
    builder methods of the class of the receiver. *)
Inductive built : heap -> Prop :=
| built_empty : built []
| built_input key h : built h -> built (snd (input key h))
| built_output key h : built h -> built (snd (output key h))
| built_exec_property key h : built h -> built (snd (exec_property key h))
| built_getitem self i h : built h -> self < List.length h -> built (__getitem__ self i h)
| built_add self other h :
    built h -> self < List.length h -> valid_operand h other -> built (__add__ self other h)
| built_uri self h : built h -> has_class h self ArtifactPlaceholder -> built (uri self h)
| built_split_uri self split h :
    built h -> has_class h self ArtifactPlaceholder -> built (split_uri self split h)
| built_value self h : built h -> has_class h self ArtifactPlaceholder -> built (value_ self h)
| built_getattr self field_name h :
    built h -> has_class h self ExecPropertyPlaceholder ->
    built (__getattr__ self field_name h).

(** A handle is grounded when it exists, every index attached to it is
    one the index field holds, and every placeholder concatenated onto it
    is grounded.  Being inductive, this leaves out a handle from which
    following concatenation operands comes back to a placeholder that is
    still being encoded. *)
Inductive grounded (h : heap) : ref -> Prop :=
| grounded_intro r p :
    h !! r = Some p ->
    (forall i, In (_IndexOperator i) (_operators p) -> index_in_range i = true) ->
    (forall q, In (_ConcatOperator (Ref q)) (_operators p) -> grounded h q) ->
    grounded h r.

(** The operands of the [Concat] that a further concatenation extends. *)
Definition concat_operands (e : PlaceholderExpression) : list PlaceholderExpression :=
  match e with
  | concat_op expressions => expressions
  | _ => [e]
  end.

(** Encoding of a concatenation operand on its own. *)
Definition operand_encode (fuel : nat) (o : operand) : M PlaceholderExpression :=
  match o with
  | Ref r => encode fuel r
  | Str s => mret (value s)
  end.

(** ['.'.join] of the accessed field names, in access order. *)
Definition dotted_path (field_name : string) (more : list string) : string :=
  foldl append_field_path field_name more.

(** ** What [encode] returns, as a function of the store alone

    The same three functions without the store in the result; [encode] is
    proved equal to [enc] paired with the unchanged store
    ([PlaceholderProps.encode_reads]). *)

Section reading.
Variable rec : ref -> option PlaceholderExpression.

Definition operator_result (op : operator) (e : PlaceholderExpression)
    : option PlaceholderExpression :=
  match op with
  | _ArtifactUriOperator split => Some (artifact_uri_op e split)
  | _ArtifactValueOperator => Some (artifact_value_op e)
  | _IndexOperator index => if index_in_range index then Some (index_op e index) else None
  | _ConcatOperator (Ref r) =>
      match rec r with
      | Some o => Some (concat_op (concat_operands e ++ [o]))
      | None => None
      end
  | _ConcatOperator (Str s) => Some (concat_op (concat_operands e ++ [value s]))
  | _ProtoOperator path => Some (proto_op e path)
  end.

Fixpoint operators_result (ops : list operator) (e : PlaceholderExpression)
    : option PlaceholderExpression :=
  match ops with
  | [] => Some e
  | op :: ops' =>
      match operator_result op e with
      | Some e' => operators_result ops' e'
      | None => None
      end
  end.
End reading.

Fixpoint enc (fuel : nat) (h : heap) (r : ref) : option PlaceholderExpression :=
  match fuel with
  | O => None
  | S fuel' =>
      match h !! r with
      | Some p => operators_result (enc fuel' h) (_operators p) (placeholder (_type p) (_key p))
      | None => None
      end
  end.

End encoding.

(** ** The stores used in the examples *)

(** [p = input('model'); p + p]. *)
Definition self_concat : heap :=
  let '(p, h) := input "model" [] in __add__ p (Ref p) h.

(** [p = input('x'); p + 's']. *)
Definition concat_once : heap :=
  let '(p, h) := input "x" [] in __add__ p (Str "s") h.

(** [exec_property('cfg').num_layers.count]. *)
Definition cfg_num_layers_count : heap :=
  let '(p, h) := exec_property "cfg" [] in
  __getattr__ p "count" (__getattr__ p "num_layers" h).

(** [exec_property('cfg').a]. *)
Definition cfg_a : heap :=
  let '(p, h) := exec_property "cfg" [] in __getattr__ p "a" h.

(** [exec_property('cfg').a[0]]. *)
Definition cfg_a_0 : heap :=
  let '(p, h) := exec_property "cfg" [] in __getitem__ p 0 (__getattr__ p "a" h).

(** [q = input('model'); p = output('out'); p + q]. *)
Definition out_plus_model : heap :=
  let '(q, h) := input "model" [] in
  let '(p, h) := output "out" h in
  __add__ p (Ref q) h.

(** ** Further notions used in the properties of the builder *)

(** The innermost leaf of an expression: down through the wrapped
    expression of an operator and the first operand of a [Concat]. *)
Fixpoint leaf_of (e : PlaceholderExpression) : PlaceholderExpression :=
  match e with
  | artifact_uri_op e0 _ => leaf_of e0
  | artifact_value_op e0 => leaf_of e0
  | index_op e0 _ => leaf_of e0
  | concat_op (e0 :: _) => leaf_of e0
  | proto_op e0 _ => leaf_of e0
  | _ => e
  end.

(** The operators the methods of a class can attach: [uri], [split_uri]
    and [value] exist on [ArtifactPlaceholder] only, and [__getattr__] on
    [ExecPropertyPlaceholder] only. *)
Definition operator_allowed (c : placeholder_class) (op : operator) : bool :=
  match c, op with
  | ArtifactPlaceholder, _ProtoOperator _ => false
  | ExecPropertyPlaceholder, _ArtifactUriOperator _ => false
  | ExecPropertyPlaceholder, _ArtifactValueOperator => false
  | _, _ => true
  end.

(** The operand of a concatenation exists in the store. *)
Definition operator_operand_valid (h : heap) (op : operator) : Prop :=
  match op with
  | _ConcatOperator o => valid_operand h o
  | _ => True
  end.

(** The class of an object is the one its constructor function gives to
    its type. *)
Definition class_of_type (t : PlaceholderType) : placeholder_class :=
  match t with
  | EXEC_PROPERTY => ExecPropertyPlaceholder
  | _ => ArtifactPlaceholder
  end.

Definition well_formed (h : heap) : Prop :=
  forall r p,
    h !! r = Some p ->
    cls p = class_of_type (_type p) /\
    forall op, In op (_operators p) ->
      operator_allowed (cls p) op = true /\ operator_operand_valid h op.

(** The operator has no placeholder operand. *)
Definition no_placeholder_operand (op : operator) : Prop :=
  forall r, op <> _ConcatOperator (Ref r).

(** The placeholder at [p] has itself as a concatenation operand, as
    after [p + p]. *)
Definition self_concatenated (h : heap) (p : ref) : Prop :=
  exists ph, h !! p = Some ph /\ In (_ConcatOperator (Ref p)) (_operators ph).

(** What a constructor function does: the handle is new, it encodes to
    the bare leaf of kind [t] with the given key, and every handle that
    encoded before still encodes to the same expression. *)
Definition creates_leaf {index_field : IndexField} (ctor : string -> heap -> ref * heap)
    (t : PlaceholderType) : Prop :=
  forall key h,
    h !! fst (ctor key h) = None /\
    encode 1 (fst (ctor key h)) (snd (ctor key h))
    = (Some (placeholder t key), snd (ctor key h)) /\
    forall r n e,
      encode n r h = (Some e, h) ->
      encode n r (snd (ctor key h)) = (Some e, snd (ctor key h)).

(** What a concatenation operand encodes to, given the encoding of
    placeholders. *)
Definition operand_result (rec : ref -> option PlaceholderExpression) (o : operand)
    : option PlaceholderExpression :=
  match o with
  | Ref r => rec r
  | Str s => Some (value s)
  end.

(** [input('model').uri + '/model/' + exec_property('version')], the
    example of the docstrings. *)
Definition model_uri_version : heap :=
  let '(m, h) := input "model" [] in
  let h := uri m h in
  let h := __add__ m (Str "/model/") h in
  let '(v, h) := exec_property "version" h in
  __add__ m (Ref v) h.

(** [input('examples')[0]], from the docstring example
    [input('examples')[0].split_uri('train')]. *)
Definition examples_0 : heap :=
  let '(p, h) := input "examples" [] in __getitem__ p 0 h.

End Placeholder.

(* ===================================================================== *)
(** * Output resolution ([outputs_utils.py]) *)
(* ===================================================================== *)

Module OutputsUtils.

(** ** Library functions the module calls: [os.path] (POSIX) and [str] *)

Definition is_sep (c : ascii) : bool := Ascii.eqb c "/".

(** [b.startswith('/')]. *)
Definition startswith_sep (b : string) : bool :=
  match b with
  | String c _ => is_sep c
  | EmptyString => false
  end.

(** [path.endswith('/')]. *)
Fixpoint endswith_sep (path : string) : bool :=
  match path with
  | EmptyString => false
  | String c EmptyString => is_sep c
  | String _ rest => endswith_sep rest
  end.

(** One step of the loop of [posixpath.join]. *)
Definition join_step (path b : string) : string :=
  if startswith_sep b then b
  else if String.eqb path "" || endswith_sep path then path +:+ b
  else path +:+ "/" +:+ b.

(** [os.path.join(a, *p)]. *)
Definition join (a : string) (p : list string) : string := foldl join_step a p.

(** [p[:p.rfind('/') + 1]]: everything up to and including the last
    separator, empty when there is none. *)
Fixpoint upto_last_sep (p : string) : string :=
  match p with
  | EmptyString => EmptyString
  | String c rest =>
      match upto_last_sep rest with
      | EmptyString => if is_sep c then String c EmptyString else EmptyString
      | head => String c head
      end
  end.

(** [head == '/' * len(head)]. *)
Fixpoint all_sep (head : string) : bool :=
  match head with
  | EmptyString => true
  | String c rest => is_sep c && all_sep rest
  end.

(** [head.rstrip('/')]. *)
Fixpoint rstrip_sep (head : string) : string :=
  match head with
  | EmptyString => EmptyString
  | String c rest =>
      match rstrip_sep rest with
      | EmptyString => if is_sep c then EmptyString else String c EmptyString
      | rest' => String c rest'
      end
  end.

(** [os.path.dirname(p)]. *)
Definition dirname (p : string) : string :=
  let head := upto_last_sep p in
  if negb (String.eqb head "") && negb (all_sep head) then rstrip_sep head else head.

(** [str(i)] for an [int]. *)
Definition str (i : Z) : string := NilZero.string_of_int (Z.to_int i).

(** No character of the string is a separator. *)
Fixpoint no_sep (s : string) : bool :=
  match s with
  | EmptyString => true
  | String c s' => negb (is_sep c) && no_sep s'
  end.

(** [join_step] onto a component that does not start with a separator
    appends it after a prefix that depends on the path alone. *)
Definition join_prefix (path : string) : string :=
  if String.eqb path "" || endswith_sep path then path else path +:+ "/".

(** [os.path.basename(p)], that is [p[p.rfind('/') + 1:]]: what follows
    the last separator. *)
Fixpoint basename (p : string) : string :=
  match p with
  | EmptyString => EmptyString
  | String c rest =>
      if negb (no_sep rest) then basename rest
      else if is_sep c then rest else String c rest
  end.

(** No character of the string is a colon. *)
Fixpoint no_colon (s : string) : bool :=
  match s with
  | EmptyString => true
  | String c s' => negb (Ascii.eqb c ":") && no_colon s'
  end.

(** The string starts with a decimal digit or a minus sign. *)
Definition starts_decimal (s : string) : bool :=
  match s with
  | String c _ =>
      existsb (Ascii.eqb c) (list_ascii_of_string "0123456789-")
  | EmptyString => false
  end.

(** An output key that names one directory level of its own: not empty,
    not absolute, no trailing separator. *)
Definition plain_key (key : string) : Prop :=
  key <> "" /\ startswith_sep key = false /\ endswith_sep key = false.

(** ** Dictionaries

    A Python [dict] iterates in insertion order, and a protobuf map field
    yields its entries in an order of its own that the keys do not fix.
    Both are the list of their items in iteration order; the keys of a
    dictionary are pairwise different. *)

(** [d.get(key)]. *)
Fixpoint dict_get {V} (key : string) (d : list (string * V)) : option V :=
  match d with
  | [] => None
  | (k, v) :: d' => if String.eqb k key then Some v else dict_get key d'
  end.

(** ** Constants *)

Definition _EXECUTION := "execution".
Definition _STATEFUL_WORKING_DIR := "stateful_working_dir".
Definition _EXECUTION_OUTPUT_FILE := "executor_output.pb".
Definition _VALUE_ARTIFACT_FILE_NAME := "value".

(** ** The storage abstraction *)

(** Modelled from the spec: [tfx.dsl.io.fileio], of which this module only
    has the calls ([makedirs], [open(.., 'w')] followed by [write], [isdir],
    [rmtree], [remove]).  The operations act on an abstract storage state
    and fail with [None]; the laws say what the spec says of them:
    [makedirs] creates the directory if absent and is safe to repeat,
    writing creates the file, and neither removes what is already there. *)
Class FileIO := {
  storage : Type;
  fileio_makedirs : string -> storage -> option storage;
  fileio_write : string -> string -> storage -> option storage;
  fileio_isdir : string -> storage -> bool;
  fileio_read : string -> storage -> option string;
  fileio_rmtree : string -> storage -> option storage;
  fileio_remove : string -> storage -> option storage;
  makedirs_isdir : forall p s s',
    fileio_makedirs p s = Some s' -> fileio_isdir p s' = true;
  makedirs_exist_ok : forall p s,
    fileio_isdir p s = true -> exists s', fileio_makedirs p s = Some s';
  makedirs_keeps_dirs : forall p s s' q,
    fileio_makedirs p s = Some s' -> fileio_isdir q s = true -> fileio_isdir q s' = true;
  makedirs_keeps_files : forall p s s' q d,
    fileio_makedirs p s = Some s' -> fileio_read q s = Some d -> fileio_read q s' = Some d;
  write_read : forall p d s s',
    fileio_write p d s = Some s' -> fileio_read p s' = Some d;
  write_keeps_dirs : forall p d s s' q,
    fileio_write p d s = Some s' -> fileio_isdir q s = true -> fileio_isdir q s' = true;
  write_keeps_files : forall p d s s' q d',
    fileio_write p d s = Some s' -> q <> p ->
    fileio_read q s = Some d' -> fileio_read q s' = Some d'
}.

(** ** An in-memory storage

    Directories are a set of paths and files a map from paths to contents;
    it is the instance of [FileIO] the examples run on. *)

Record mem := mkMem {
  mem_dirs : gset string;
  mem_files : gmap string string
}.

Definition mem_makedirs (p : string) (s : mem) : option mem :=
  if decide (p ∈ mem_dirs s) then Some s
  else if decide (is_Some (mem_files s !! p)) then None
  else Some (mkMem ({[p]} ∪ mem_dirs s) (mem_files s)).

Definition mem_write (p d : string) (s : mem) : option mem :=
  if decide (p ∈ mem_dirs s) then None
  else if decide (dirname p = "" \/ dirname p ∈ mem_dirs s)
       then Some (mkMem (mem_dirs s) (<[p := d]> (mem_files s)))
       else None.

Definition mem_isdir (p : string) (s : mem) : bool := bool_decide (p ∈ mem_dirs s).

Definition mem_read (p : string) (s : mem) : option string := mem_files s !! p.

Definition mem_rmtree (p : string) (s : mem) : option mem :=
  if decide (p ∈ mem_dirs s)
  then Some (mkMem (filter (fun q => q <> p /\ String.prefix (p +:+ "/") q = false) (mem_dirs s))
                   (filter (fun kv => String.prefix (p +:+ "/") (fst kv) = false) (mem_files s)))
  else None.

Definition mem_remove (p : string) (s : mem) : option mem :=
  if decide (is_Some (mem_files s !! p))
  then Some (mkMem (mem_dirs s) (delete p (mem_files s)))
  else None.

(** The in-memory storage is a storage in the sense of [FileIO]. *)
#[local] Instance mem_fileio : FileIO.
Proof.
  refine {|
    storage := mem;
    fileio_makedirs := mem_makedirs;
    fileio_write := mem_write;
    fileio_isdir := mem_isdir;
    fileio_read := mem_read;
    fileio_rmtree := mem_rmtree;
    fileio_remove := mem_remove
  |}.
  - unfold mem_makedirs, mem_isdir. intros p s s' Hm. apply bool_decide_eq_true.
    repeat case_decide; simplify_eq; simpl; set_solver.
  - unfold mem_makedirs, mem_isdir. intros p s Hd%bool_decide_eq_true.
    exists s. case_decide; [reflexivity|contradiction].
  - unfold mem_makedirs, mem_isdir. intros p s s' q Hm Hd%bool_decide_eq_true.
    apply bool_decide_eq_true. repeat case_decide; simplify_eq; simpl; set_solver.
  - unfold mem_makedirs, mem_read. intros p s s' q d Hm Hd.
    repeat case_decide; simplify_eq; simpl; assumption.
  - unfold mem_write, mem_read. intros p d s s' Hm.
    repeat case_decide; simplify_eq; simpl. apply lookup_insert_eq.
  - unfold mem_write, mem_isdir. intros p d s s' q Hm Hd%bool_decide_eq_true.
    apply bool_decide_eq_true. repeat case_decide; simplify_eq; simpl; assumption.
  - unfold mem_write, mem_read. intros p d s s' q d' Hm Hq Hd.
    repeat case_decide; simplify_eq; simpl. rewrite lookup_insert_ne by congruence. assumption.
Defined.

(** A call of the storage abstraction, as issued, and for [isdir] the
    answer it gave. *)
Inductive fileio_call :=
| Makedirs (path : string)
| OpenWrite (path : string) (data : string)
| Isdir (path : string) (answer : bool)
| Rmtree (path : string)
| Remove (path : string).

Section outputs_utils.

(** [metadata_store_pb2.ArtifactType], and whether the class that
    [artifact_utils.deserialize_artifact] instantiates for a type is a
    subclass of [ValueArtifact]. *)
Context {ArtifactType : Type} (is_value_artifact : ArtifactType -> bool).
Context `{FileIO}.

(** [types.Artifact], as far as this module reads and writes it. *)
Record Artifact := mkArtifact {
  artifact_type : ArtifactType;
  uri : string;
  name : string
}.

(** [artifact_utils.deserialize_artifact]: a new artifact of the type. *)
Definition deserialize_artifact (t : ArtifactType) : Artifact := mkArtifact t "" "".

(** [isinstance(artifact, ValueArtifact)]. *)
Definition isinstance_ValueArtifact (artifact : Artifact) : bool :=
  is_value_artifact (artifact_type artifact).

Definition set_uri (u : string) (a : Artifact) : Artifact :=
  mkArtifact (artifact_type a) u (name a).
Definition set_name (n : string) (a : Artifact) : Artifact :=
  mkArtifact (artifact_type a) (uri a) n.

(** [pipeline_pb2.PipelineNode]: [node_info.id] and the map
    [outputs.outputs], as the list of its entries in the order [items()]
    yields them, each output reduced to [artifact_spec.type].  Protobuf
    leaves that order open: every order of the entries is a node. *)
Record PipelineNode := mkPipelineNode {
  node_info_id : string;
  outputs : list (string * ArtifactType)
}.

(** [pipeline_pb2.PipelineInfo]. *)
Record PipelineInfo := mkPipelineInfo { id : string }.

(** [pipeline_pb2.PipelineRuntimeSpec], each field reduced to its
    [field_value.string_value]. *)
Record PipelineRuntimeSpec := mkPipelineRuntimeSpec {
  pipeline_root : string;
  pipeline_run_id : string
}.

(** The fields of an [OutputsResolver] object. *)
Record OutputsResolver := mkOutputsResolver {
  _pipeline_node : PipelineNode;
  _pipeline_info : PipelineInfo;
  _pipeline_root : string;
  _pipeline_run_id : string;
  _node_dir : string
}.

(** [OutputsResolver.__init__]. *)
Definition __init__ (pipeline_node : PipelineNode) (pipeline_info : PipelineInfo)
    (pipeline_runtime_spec : PipelineRuntimeSpec) : OutputsResolver :=
  mkOutputsResolver pipeline_node pipeline_info
    (pipeline_root pipeline_runtime_spec)
    (pipeline_run_id pipeline_runtime_spec)
    (join (pipeline_root pipeline_runtime_spec) [node_info_id pipeline_node]).

(** ** Effects

    What a call can read and change: the resolver object [self], the
    storage, the calls issued to the storage so far, and the debug log. *)
Record world := mkWorld {
  self_obj : OutputsResolver;
  store : storage;
  calls : list fileio_call;
  debug_log : list string
}.

(** A computation returns a value or fails with the storage's error, and
    leaves a world behind in both cases. *)
Definition IO (A : Type) : Type := world -> option A * world.

#[global] Instance IO_ret : MRet IO := fun A a w => (Some a, w).
#[global] Instance IO_bind : MBind IO := fun A B f m w =>
  match m w with
  | (Some a, w') => f a w'
  | (None, w') => (None, w')
  end.

Definition get_self : IO OutputsResolver := fun w => (Some (self_obj w), w).

(** A storage call: it is recorded, then it succeeds with a new storage or
    fails and leaves the storage as it was. *)
Definition storage_call (c : fileio_call) (op : storage -> option storage) : IO unit :=
  fun w =>
    let w' := mkWorld (self_obj w) (store w) (calls w ++ [c]) (debug_log w) in
    match op (store w) with
    | Some s' => (Some tt, mkWorld (self_obj w) s' (calls w ++ [c]) (debug_log w))
    | None => (None, w')
    end.

(** [fileio.makedirs(path)]. *)
Definition makedirs (path : string) : IO unit :=
  storage_call (Makedirs path) (fileio_makedirs path).

(** [with fileio.open(path, 'w') as f: f.write(data)]. *)
Definition open_write (path data : string) : IO unit :=
  storage_call (OpenWrite path data) (fileio_write path data).

(** [fileio.isdir(path)]. *)
Definition isdir (path : string) : IO bool :=
  fun w =>
    let answer := fileio_isdir path (store w) in
    (Some answer,
     mkWorld (self_obj w) (store w) (calls w ++ [Isdir path answer]) (debug_log w)).

(** [fileio.rmtree(path)]. *)
Definition rmtree (path : string) : IO unit :=
  storage_call (Rmtree path) (fileio_rmtree path).

(** [fileio.remove(path)]. *)
Definition remove (path : string) : IO unit :=
  storage_call (Remove path) (fileio_remove path).

(** [logging.debug(msg)]. *)
Definition logging_debug (msg : string) : IO unit :=
  fun w => (Some tt, mkWorld (self_obj w) (store w) (calls w) (debug_log w ++ [msg])).

(** [for x in l: body(x)]. *)
Fixpoint for_each {A} (l : list A) (body : A -> IO unit) : IO unit :=
  match l with
  | [] => mret tt
  | x :: l' => body x ;; for_each l' body
  end.

(** [for x in l: acc = body(acc, x)]. *)
Fixpoint for_fold {A B} (l : list A) (body : B -> A -> IO B) (acc : B) : IO B :=
  match l with
  | [] => mret acc
  | x :: l' => acc' ← body acc x; for_fold l' body acc'
  end.

(** ** [make_output_dirs], [remove_output_dirs] *)

Definition make_output_dir (artifact : Artifact) : IO unit :=
  if isinstance_ValueArtifact artifact then
    let artifact_dir := dirname (uri artifact) in
    makedirs artifact_dir ;;
    open_write (uri artifact) ""
  else
    makedirs (uri artifact).

Definition make_output_dirs (output_dict : list (string * list Artifact)) : IO unit :=
  for_each output_dict (fun '(_, artifact_list) =>
    for_each artifact_list make_output_dir).

Definition remove_output_dir (artifact : Artifact) : IO unit :=
  isdir (uri artifact) ≫= fun is_dir : bool =>
  if is_dir then rmtree (uri artifact) else remove (uri artifact).

Definition remove_output_dirs (output_dict : list (string * list Artifact)) : IO unit :=
  for_each output_dict (fun '(_, artifact_list) =>
    for_each artifact_list remove_output_dir).

(** ** Methods of [OutputsResolver] *)

(** ['{0}:{1}:{2}:{3}:{4}'.format(a, b, c, d, i)]. *)
Definition format_name (a b c d : string) (i : Z) : string :=
  a +:+ ":" +:+ b +:+ ":" +:+ c +:+ ":" +:+ d +:+ ":" +:+ str i.

(** The body of the loop of [generate_output_artifacts] up to the log
    call: the artifact made for one entry of the output map. *)
Definition output_artifact (self : OutputsResolver) (execution_id : Z)
    (key : string) (output_spec : ArtifactType) : Artifact :=
  let artifact := deserialize_artifact output_spec in
  let artifact := set_uri (join (_node_dir self) [key; str execution_id]) artifact in
  let artifact :=
    if isinstance_ValueArtifact artifact
    then set_uri (join (uri artifact) [_VALUE_ARTIFACT_FILE_NAME]) artifact
    else artifact in
  set_name (format_name (id (_pipeline_info self)) (_pipeline_run_id self)
              (node_info_id (_pipeline_node self)) key 0) artifact.

(** [output_artifacts[key].append(artifact)] on a [defaultdict(list)]:
    the list of a key that is there is extended in its place, and a key
    that is not is inserted, after all the others, with the list of the
    one artifact. *)
Fixpoint dict_append (key : string) (artifact : Artifact)
    (output_artifacts : list (string * list Artifact)) : list (string * list Artifact) :=
  match output_artifacts with
  | [] => [(key, [artifact])]
  | (k, artifact_list) :: rest =>
      if String.eqb k key then (k, artifact_list ++ [artifact]) :: rest
      else (k, artifact_list) :: dict_append key artifact rest
  end.

(** [OutputsResolver.generate_output_artifacts]. *)
Definition generate_output_artifacts (execution_id : Z)
    : IO (list (string * list Artifact)) :=
  self ← get_self;
  for_fold (outputs (_pipeline_node self))
    (fun output_artifacts '(key, output_spec) =>
       self ← get_self;
       let artifact := output_artifact self execution_id key output_spec in
       logging_debug ("Creating output artifact uri " +:+ uri artifact +:+ " as directory") ;;
       mret (dict_append key artifact output_artifacts))
    [].

(** [OutputsResolver.get_executor_output_uri]. *)
Definition get_executor_output_uri (execution_id : Z) : IO string :=
  self ← get_self;
  let execution_dir := join (_node_dir self) [_EXECUTION; str execution_id] in
  makedirs execution_dir ;;
  let executor_output_uri := join execution_dir [_EXECUTION_OUTPUT_FILE] in
  mret executor_output_uri.

(** [OutputsResolver.get_stateful_working_directory]. *)
Definition get_stateful_working_directory : IO string :=
  self ← get_self;
  let stateful_working_dir :=
    join (_node_dir self) [_pipeline_run_id self; _STATEFUL_WORKING_DIR] in
  makedirs stateful_working_dir ;;
  mret stateful_working_dir.

(** Two consecutive calls of [get_stateful_working_directory]. *)
Definition get_stateful_working_directory_twice : IO (string * string) :=
  d1 ← get_stateful_working_directory;
  d2 ← get_stateful_working_directory;
  mret (d1, d2).

(** What [make_output_dirs] is to create for one artifact, read off a
    storage state. *)
Definition output_dir_made (artifact : Artifact) (s : storage) : Prop :=
  if isinstance_ValueArtifact artifact then
    fileio_isdir (dirname (uri artifact)) s = true /\ fileio_read (uri artifact) s = Some ""
  else
    fileio_isdir (uri artifact) s = true.

(** The storage calls of [make_output_dirs] for one artifact. *)
Definition output_dir_calls (artifact : Artifact) : list fileio_call :=
  if isinstance_ValueArtifact artifact then
    [Makedirs (dirname (uri artifact)); OpenWrite (uri artifact) ""]
  else
    [Makedirs (uri artifact)].

(** The dictionary the loop builds from the entries of the output map. *)
Definition output_dict (self : OutputsResolver) (execution_id : Z)
    (l : list (string * ArtifactType)) (acc : list (string * list Artifact))
    : list (string * list Artifact) :=
  foldl (fun acc kt =>
           dict_append (fst kt) (output_artifact self execution_id (fst kt) (snd kt)) acc)
        acc l.

Definition output_messages (self : OutputsResolver) (execution_id : Z)
    (l : list (string * ArtifactType)) : list string :=
  map (fun kt => "Creating output artifact uri "
                 +:+ uri (output_artifact self execution_id (fst kt) (snd kt))
                 +:+ " as directory") l.

(** The per-execution directory of an output key. *)
Definition execution_dir (node : PipelineNode) (spec : PipelineRuntimeSpec)
    (key : string) (execution_id : Z) : string :=
  join (pipeline_root spec) [node_info_id node; key; str execution_id].

(** The uri given to an output of type [t]. *)
Definition output_uri (node : PipelineNode) (spec : PipelineRuntimeSpec)
    (key : string) (t : ArtifactType) (execution_id : Z) : string :=
  join (pipeline_root spec)
    ([node_info_id node; key; str execution_id]
     ++ if is_value_artifact t then [_VALUE_ARTIFACT_FILE_NAME] else []).

(** The artifacts of an output dictionary, in the order the loops of
    [make_output_dirs] and [remove_output_dirs] visit them: the items in
    the order of the dictionary, the artifacts of an item in the order of
    its list. *)
Definition all_artifacts (output_dict : list (string * list Artifact)) : list Artifact :=
  flat_map snd output_dict.

(** The storage calls of [remove_output_dirs] for one artifact, given the
    answer of [isdir]. *)
Definition remove_dir_calls (artifact_and_answer : Artifact * bool) : list fileio_call :=
  [Isdir (uri (fst artifact_and_answer)) (snd artifact_and_answer);
   if snd artifact_and_answer
   then Rmtree (uri (fst artifact_and_answer))
   else Remove (uri (fst artifact_and_answer))].

(** What [isdir] answers for each artifact in turn, on the storage as the
    removals of the artifacts before it have left it. *)
Fixpoint isdir_answers (artifacts : list Artifact) (s : storage) : list bool :=
  match artifacts with
  | [] => []
  | artifact :: rest =>
      let answer := fileio_isdir (uri artifact) s in
      answer ::
      match (if answer then fileio_rmtree (uri artifact) s
             else fileio_remove (uri artifact) s) with
      | Some s' => isdir_answers rest s'
      | None => []
      end
  end.

(** The one entry that [generate_output_artifacts] makes for an entry of
    the output map. *)
Definition output_item (self : OutputsResolver) (execution_id : Z)
    (kt : string * ArtifactType) : string * list Artifact :=
  (fst kt, [output_artifact self execution_id (fst kt) (snd kt)]).

(** The directory that [get_executor_output_uri] creates. *)
Definition executor_output_dir (self : OutputsResolver) (execution_id : Z) : string :=
  join (_node_dir self) [_EXECUTION; str execution_id].

End outputs_utils.

(** The artifact types of the examples: [Model] is an ordinary artifact,
    [Integer] a [ValueArtifact]. *)
Inductive example_type := Model | Integer.

Definition example_is_value (t : example_type) : bool :=
  match t with
  | Model => false
  | Integer => true
  end.

(** Node ["Trainer"] whose output map yields ["model"], then
    ["accuracy"]. *)
Definition trainer_node : PipelineNode :=
  mkPipelineNode "Trainer" [("model", Model); ("accuracy", Integer)].

(** The same node with the entries of the output map in the other
    order. *)
Definition trainer_node_accuracy_first : PipelineNode :=
  mkPipelineNode "Trainer" [("accuracy", Integer); ("model", Model)].

(** The resolver of node ["Trainer"] in pipeline ["p"], run ["r1"], under
    root ["root"]. *)
Definition trainer : OutputsResolver :=
  __init__ trainer_node (mkPipelineInfo "p") (mkPipelineRuntimeSpec "root" "r1").

Definition trainer_accuracy_first : OutputsResolver :=
  __init__ trainer_node_accuracy_first (mkPipelineInfo "p") (mkPipelineRuntimeSpec "root" "r1").

(** The world of the examples: nothing stored, nothing called yet. *)
Definition trainer_world : world :=
  mkWorld trainer (mkMem ∅ ∅) [] [].

(** A world in which a file is in the place of the directory of output
    ["accuracy"] for execution 7. *)
Definition blocked_world : world :=
  mkWorld trainer (mkMem ∅ (<["root/Trainer/accuracy/7" := "x"]> ∅)) [] [].

(** The same with the entries of the output map in the other order. *)
Definition blocked_world_accuracy_first : world :=
  mkWorld trainer_accuracy_first (mkMem ∅ (<["root/Trainer/accuracy/7" := "x"]> ∅)) [] [].

(** Node ["Evaluator"] with an output named ["execution"]. *)
Definition evaluator : OutputsResolver :=
  __init__ (mkPipelineNode "Evaluator" [("execution", Model)])
    (mkPipelineInfo "p") (mkPipelineRuntimeSpec "root" "r1").

Definition evaluator_world : world :=
  mkWorld evaluator (mkMem ∅ ∅) [] [].

End OutputsUtils.

(* ===================================================================== *)
(** * The graph compiler ([compiler.Compiler], called by [compiler_test.py]) *)
(* ===================================================================== *)

Module Compiler.

(** Modelled from the spec: [tfx.dsl.compiler.compiler] is not among the
    sources (only its test is), so the authored pipeline, the compiled
    pipeline and [compile] follow sections 3, 4.2 and 7 of the
    specification. *)

(** Modelled from the spec: the kind tag of an authored node. *)
Inductive node_kind := Ordinary | Importer | Resolver.

(** Modelled from the spec: an input channel binding names a producer node
    and one of its output keys, or an external (importer) source of a given
    artifact type. *)
Inductive channel_source :=
| FromProducer (producer_id : string) (output_key : string)
| External (artifact_type : string).

(** Modelled from the spec: literals of the supported scalar types. *)
Inductive scalar :=
| IntValue (i : Z)
| StringValue (s : string)
| BoolValue (b : bool).

(** Modelled from the spec: the value of an execution property is a
    literal, a deferred runtime parameter, a placeholder expression, or
    some other runtime object, which the compiler does not support. *)
Inductive exec_property_value :=
| Literal (v : scalar)
| RuntimeParameter (name : string) (default : option scalar)
| PlaceholderValue (e : Placeholder.PlaceholderExpression)
| Unsupported (description : string).

(** Modelled from the spec: an authored node. *)
Record AuthoredNode := mkAuthoredNode {
  id : string;
  kind : node_kind;
  inputs : list (string * channel_source);
  outputs : list (string * string);
  exec_properties : list (string * exec_property_value);
  executor_spec : string;
  platform_config : option string
}.

(** Modelled from the spec: an authored pipeline, with its nodes in
    declaration order. *)
Record AuthoredPipeline := mkAuthoredPipeline {
  pipeline_name : string;
  pipeline_root : string;
  enable_cache : bool;
  beam_pipeline_args : list string;
  components : list AuthoredNode
}.

(** Modelled from the spec: a compiled input channel: the input key, the
    artifact type, and the producer node id and output key when the source
    is a node of the pipeline. *)
Record InputSpec := mkInputSpec {
  input_key : string;
  input_type : string;
  producer : option (string * string)
}.

(** Modelled from the spec: a compiled execution property. *)
Inductive compiled_value :=
| FieldValue (v : scalar)
| RuntimeParameterValue (name : string) (default : option scalar)
| PlaceholderExpressionValue (e : Placeholder.PlaceholderExpression).

(** Modelled from the spec: a compiled node; [node_kind] selects the
    ordinary, importer or resolver variant. *)
Record CompiledNode := mkCompiledNode {
  node_id : string;
  compiled_kind : node_kind;
  input_specs : list InputSpec;
  output_specs : list (string * string);
  compiled_exec_properties : list (string * compiled_value);
  compiled_executor_spec : string;
  upstream_nodes : list string;
  compiled_platform_config : option string
}.

(** Modelled from the spec: the compiled pipeline. *)
Record CompiledPipeline := mkCompiledPipeline {
  pipeline_info_id : string;
  compiled_pipeline_root : string;
  compiled_enable_cache : bool;
  compiled_beam_pipeline_args : list string;
  nodes : list CompiledNode
}.

(** Modelled from the spec: a compilation failure names the offending node
    and the violation. *)
Inductive CompilationError :=
| UnknownProducer (node producer_id : string)
| MissingOutputKey (node producer_id output_key : string)
| UnsupportedExecProperty (node name : string).

(** The node with the given id among those already compiled. *)
Fixpoint find_node (earlier : list CompiledNode) (producer_id : string)
    : option CompiledNode :=
  match earlier with
  | [] => None
  | c :: earlier' =>
      if String.eqb (node_id c) producer_id then Some c else find_node earlier' producer_id
  end.

(** The declared type of an output key. *)
Fixpoint find_output (specs : list (string * string)) (output_key : string)
    : option string :=
  match specs with
  | [] => None
  | (k, t) :: specs' => if String.eqb k output_key then Some t else find_output specs' output_key
  end.

(** Modelled from the spec: one channel binding of node [node]: the
    producer must already appear and must declare the output key. *)
Definition compile_input (earlier : list CompiledNode) (node : string)
    (binding : string * channel_source) : CompilationError + InputSpec :=
  match snd binding with
  | External t => inr (mkInputSpec (fst binding) t None)
  | FromProducer producer_id output_key =>
      match find_node earlier producer_id with
      | None => inl (UnknownProducer node producer_id)
      | Some c =>
          match find_output (output_specs c) output_key with
          | None => inl (MissingOutputKey node producer_id output_key)
          | Some t => inr (mkInputSpec (fst binding) t (Some (producer_id, output_key)))
          end
      end
  end.

(** Modelled from the spec: one execution property of node [node]. *)
Definition compile_exec_property (node : string) (property : string * exec_property_value)
    : CompilationError + (string * compiled_value) :=
  match snd property with
  | Literal v => inr (fst property, FieldValue v)
  | RuntimeParameter name default => inr (fst property, RuntimeParameterValue name default)
  | PlaceholderValue e => inr (fst property, PlaceholderExpressionValue e)
  | Unsupported _ => inl (UnsupportedExecProperty node (fst property))
  end.

(** All of a list, or the first failure. *)
Fixpoint compile_all {A B} (f : A -> CompilationError + B) (l : list A)
    : CompilationError + list B :=
  match l with
  | [] => inr []
  | x :: l' =>
      match f x with
      | inl e => inl e
      | inr y =>
          match compile_all f l' with
          | inl e => inl e
          | inr ys => inr (y :: ys)
          end
      end
  end.

(** The producers named by the compiled inputs, each once. *)
Definition upstream_of (specs : list InputSpec) : list string :=
  remove_dups (omap (fun s => fst <$> producer s) specs).

(** Modelled from the spec: one authored node, given the nodes compiled
    before it. *)
Definition compile_node (earlier : list CompiledNode) (n : AuthoredNode)
    : CompilationError + CompiledNode :=
  match compile_all (compile_input earlier (id n)) (inputs n) with
  | inl e => inl e
  | inr specs =>
      match compile_all (compile_exec_property (id n)) (exec_properties n) with
      | inl e => inl e
      | inr properties =>
          inr (mkCompiledNode (id n) (kind n) specs (outputs n) properties
                 (executor_spec n) (upstream_of specs) (platform_config n))
      end
  end.

(** Modelled from the spec: the authored nodes in declaration order, each
    compiled against those before it. *)
Fixpoint compile_nodes (earlier : list CompiledNode) (ns : list AuthoredNode)
    : CompilationError + list CompiledNode :=
  match ns with
  | [] => inr earlier
  | n :: ns' =>
      match compile_node earlier n with
      | inl e => inl e
      | inr c => compile_nodes (earlier ++ [c]) ns'
      end
  end.

(** Modelled from the spec: [Compiler.compile]: a compiled pipeline or a
    [CompilationError], never both. *)
Definition compile (p : AuthoredPipeline) : CompilationError + CompiledPipeline :=
  match compile_nodes [] (components p) with
  | inl e => inl e
  | inr cs =>
      inr (mkCompiledPipeline (pipeline_name p) (pipeline_root p) (enable_cache p)
             (beam_pipeline_args p) cs)
  end.

(** Every producer named by a binding of the node is among [declared], and
    declares the output key. *)
Definition bindings_declared (declared : list AuthoredNode) (n : AuthoredNode) : Prop :=
  forall key producer_id output_key,
    In (key, FromProducer producer_id output_key) (inputs n) ->
    exists m, In m declared /\ id m = producer_id.

Definition output_keys_declared (declared : list AuthoredNode) (n : AuthoredNode) : Prop :=
  forall key producer_id output_key m,
    In (key, FromProducer producer_id output_key) (inputs n) ->
    In m declared -> id m = producer_id ->
    exists t, In (output_key, t) (outputs m).

Definition exec_properties_supported (n : AuthoredNode) : Prop :=
  forall name description, ~ In (name, Unsupported description) (exec_properties n).

(** Channel bindings are forward-declared only: every node binds only to
    producers declared before it (so there is no cycle either). *)
Definition forward_declared (ns : list AuthoredNode) : Prop :=
  forall before n after, ns = before ++ n :: after -> bindings_declared before n.

(** Some binding names a producer that is not declared before its
    consumer (in particular, one that is not declared at all). *)
Definition undeclared_producer (ns : list AuthoredNode) : Prop :=
  exists before n after key producer_id output_key,
    ns = before ++ n :: after /\
    In (key, FromProducer producer_id output_key) (inputs n) /\
    forall m, In m before -> id m <> producer_id.

(** What a compiled node keeps of the authored node. *)
Definition compiled_from (n : AuthoredNode) (c : CompiledNode) : Prop :=
  node_id c = id n /\ compiled_kind c = kind n /\ output_specs c = outputs n.

(** ** The pipelines of the examples *)

Definition node_A : AuthoredNode :=
  mkAuthoredNode "A" Ordinary [] [("x", "Examples")] [] "executor_a" None.

(** [B] consumes output ["x"] of [A]. *)
Definition node_B : AuthoredNode :=
  mkAuthoredNode "B" Ordinary [("examples", FromProducer "A" "x")] [("y", "Model")]
    [("num_steps", Literal (IntValue 2000))] "executor_b" None.

(** [B'] consumes an output ["z"] that [A] does not declare. *)
Definition node_B_missing_key : AuthoredNode :=
  mkAuthoredNode "B" Ordinary [("examples", FromProducer "A" "z")] [("y", "Model")] []
    "executor_b" None.

(** [C] has an execution property that is a runtime object. *)
Definition node_C_unsupported : AuthoredNode :=
  mkAuthoredNode "C" Ordinary [] [] [("callback", Unsupported "function")] "executor_c" None.

Definition pipeline_of (ns : list AuthoredNode) : AuthoredPipeline :=
  mkAuthoredPipeline "iris" "tfx_root/pipelines/iris" true
    ["--my_testing_beam_pipeline_args=foo"] ns.

End Compiler.

(* ===================================================================== *)
(** * Properties of placeholders *)
(* ===================================================================== *)

Module PlaceholderProps.
Import Placeholder.

Section encoding.
Context {index_field : IndexField}.

Lemma operator_encode_reads rec_m rec op e h :
  (forall r, rec_m r h = (rec r, h)) ->
  operator_encode rec_m op e h = (operator_result rec op e, h).
Proof.
  intros Hrec. destruct op as [ | | i | [s|r] | ]; simpl; try reflexivity.
  - destruct (index_in_range i); reflexivity.
  - destruct e; reflexivity.
  - unfold mbind, M_bind. rewrite Hrec.
    destruct (rec r) as [o|]; [|reflexivity]. destruct e; reflexivity.
Qed.

Lemma encode_operators_reads rec_m rec ops h :
  (forall r, rec_m r h = (rec r, h)) ->
  forall e, encode_operators rec_m ops e h = (operators_result rec ops e, h).
Proof.
  intros Hrec. induction ops as [|op ops IH]; intros e; simpl; [reflexivity|].
  unfold mbind, M_bind. rewrite (operator_encode_reads rec_m rec op e h Hrec).
  destruct (operator_result rec op e); [apply IH | reflexivity].
Qed.

(** [encode] never writes the store. *)
Lemma encode_reads fuel : forall r h, encode fuel r h = (enc fuel h r, h).
Proof.
  induction fuel as [|fuel IH]; intros r h; simpl; [reflexivity|].
  unfold mbind, M_bind, lookup_obj. destruct (h !! r) as [p|]; [|reflexivity].
  apply encode_operators_reads. intros q. apply IH.
Qed.

Lemma operator_result_mono (rec1 rec2 : ref -> option PlaceholderExpression) op e x :
  (forall r y, rec1 r = Some y -> rec2 r = Some y) ->
  operator_result rec1 op e = Some x -> operator_result rec2 op e = Some x.
Proof.
  intros Hrec. destruct op as [ | | | [s|r] | ]; simpl; try (intros; assumption).
  destruct (rec1 r) as [o|] eqn:E; [|discriminate].
  rewrite (Hrec r o E). intros; assumption.
Qed.

Lemma operators_result_mono (rec1 rec2 : ref -> option PlaceholderExpression) ops :
  (forall r y, rec1 r = Some y -> rec2 r = Some y) ->
  forall e x, operators_result rec1 ops e = Some x -> operators_result rec2 ops e = Some x.
Proof.
  intros Hrec. induction ops as [|op ops IH]; intros e x; simpl; [intros; assumption|].
  destruct (operator_result rec1 op e) as [e'|] eqn:E; [|discriminate].
  rewrite (operator_result_mono rec1 rec2 op e e' Hrec E). apply IH.
Qed.

Lemma operators_result_app rec ops1 ops2 e :
  operators_result rec (ops1 ++ ops2) e =
  match operators_result rec ops1 e with
  | Some e' => operators_result rec ops2 e'
  | None => None
  end.
Proof.
  revert e. induction ops1 as [|op ops1 IH]; intros e; simpl; [reflexivity|].
  destruct (operator_result rec op e); [apply IH | reflexivity].
Qed.

Lemma enc_S fuel h : forall r e, enc fuel h r = Some e -> enc (S fuel) h r = Some e.
Proof.
  induction fuel as [|fuel IH]; intros r e; [discriminate|].
  intros H. simpl in H. change (enc (S (S fuel)) h r) with
    (match h !! r with
     | Some p => operators_result (enc (S fuel) h) (_operators p) (placeholder (_type p) (_key p))
     | None => None
     end).
  destruct (h !! r) as [p|]; [|discriminate].
  exact (operators_result_mono _ _ _ IH _ _ H).
Qed.

(** More fuel never changes a result. *)
Lemma enc_mono h r e n m : n <= m -> enc n h r = Some e -> enc m h r = Some e.
Proof.
  induction 1 as [|m Hle IH]; [intros; assumption|].
  intros H. apply enc_S, IH, H.
Qed.

(** The least fuel at which [encode] returns: below it the handle itself
    is never re-entered. *)
Lemma enc_least h r e n :
  enc n h r = Some e ->
  exists k, enc (S k) h r = Some e /\ forall j, j <= k -> enc j h r = None.
Proof.
  induction n as [|n IH]; [discriminate|].
  intros H. destruct (enc n h r) as [e0|] eqn:E.
  - assert (e0 = e) as ->.
    { apply enc_S in E. congruence. }
    apply IH. reflexivity.
  - exists n. split; [assumption|].
    intros j Hj. destruct (enc j h r) as [y|] eqn:Ej; [|reflexivity].
    rewrite (enc_mono h r y j n Hj Ej) in E. discriminate.
Qed.

(** A store that differs from [h] at [p] only gives the same results to
    every call that does not go through [p]. *)
Lemma enc_frame h h' p k :
  (forall q, q <> p -> h' !! q = h !! q) ->
  (forall j, j <= k -> enc j h p = None) ->
  forall j, j <= k -> forall q x, enc j h q = Some x -> enc j h' q = Some x.
Proof.
  intros Hsame Hnone. induction j as [|j IH]; intros Hj q x; [discriminate|].
  intros H. assert (q <> p) as Hq.
  { intros ->. rewrite (Hnone (S j) Hj) in H. discriminate. }
  simpl in *. rewrite (Hsame q Hq). destruct (h !! q) as [pq|]; [|discriminate].
  refine (operators_result_mono _ _ _ _ _ _ H). apply IH. lia.
Qed.

(** The form in which the two lemmas above are used: when [encode] returns
    on [p], its operators are encoded with some fuel [k], and whatever is
    encoded with that fuel is encoded alike after [p] has been changed. *)
Lemma enc_settle h h' p e n :
  enc n h p = Some e ->
  (forall q, q <> p -> h' !! q = h !! q) ->
  exists k ph,
    h !! p = Some ph /\
    operators_result (enc k h) (_operators ph) (placeholder (_type ph) (_key ph)) = Some e /\
    forall ops e0 x,
      operators_result (enc k h) ops e0 = Some x ->
      operators_result (enc k h') ops e0 = Some x.
Proof.
  intros H Hsame. destruct (enc_least h p e n H) as (k & Hk & Hnone).
  simpl in Hk. destruct (h !! p) as [ph|] eqn:Hp; [|discriminate].
  exists k, ph. split; [reflexivity|]. split; [assumption|].
  intros ops e0 x. apply operators_result_mono.
  apply (enc_frame h h' p k Hsame Hnone k). lia.
Qed.

Lemma alter_operators_lookup f p (h : heap) ph :
  h !! p = Some ph ->
  alter (fun x => set_operators (f (_operators x)) x) p h !! p
  = Some (set_operators (f (_operators ph)) ph).
Proof. intros H. rewrite list_lookup_alter_eq, H. reflexivity. Qed.

Lemma alter_operators_other (f : PlaceholderObj -> PlaceholderObj) p (h : heap) q :
  q <> p -> alter f p h !! q = h !! q.
Proof. intros H. apply list_lookup_alter_ne. congruence. Qed.

(** Encoding after the operator list of [p] has been replaced: the part
    of the new list that was there before encodes as it did. *)
Lemma enc_replace_operators f h p n e :
  enc n h p = Some e ->
  exists k ph,
    h !! p = Some ph /\
    operators_result (enc k h) (_operators ph) (placeholder (_type ph) (_key ph)) = Some e /\
    (forall ops e0 x,
      operators_result (enc k h) ops e0 = Some x ->
      operators_result (enc k (alter (fun x => set_operators (f (_operators x)) x) p h)) ops e0
      = Some x) /\
    forall m,
      enc (S m) (alter (fun x => set_operators (f (_operators x)) x) p h) p
      = operators_result (enc m (alter (fun x => set_operators (f (_operators x)) x) p h))
          (f (_operators ph)) (placeholder (_type ph) (_key ph)).
Proof.
  intros H.
  destruct (enc_settle h (alter (fun x => set_operators (f (_operators x)) x) p h) p e n H)
    as (k & ph & Hp & He & Hframe).
  { intros q Hq. apply alter_operators_other, Hq. }
  exists k, ph. repeat split; try assumption.
  intros m. cbn [enc]. rewrite (alter_operators_lookup f p h ph Hp). reflexivity.
Qed.


(** ** Termination on grounded handles *)

Lemma operators_result_returns h ops :
  (forall i, In (_IndexOperator i) ops -> index_in_range i = true) ->
  (forall q, In (_ConcatOperator (Ref q)) ops -> exists n e, enc n h q = Some e) ->
  forall e0, exists n e, forall m, n <= m -> operators_result (enc m h) ops e0 = Some e.
Proof.
  induction ops as [|op ops IH]; intros Hidx Hsub e0.
  - exists 0, e0. reflexivity.
  - assert (exists n1 e1, forall m, n1 <= m -> operator_result (enc m h) op e0 = Some e1)
      as (n1 & e1 & H1).
    { destruct op as [ | | i | [s|q] | ]; try (eexists 0, _; reflexivity).
      - exists 0, (index_op e0 i). intros m _. simpl.
        rewrite (Hidx i (or_introl eq_refl)). reflexivity.
      - destruct (Hsub q (or_introl eq_refl)) as (n & o & Ho).
        exists n, (concat_op (concat_operands e0 ++ [o])). intros m Hm. simpl.
        rewrite (enc_mono h q o n m Hm Ho). reflexivity. }
    destruct (IH (fun i Hi => Hidx i (or_intror Hi)) (fun q Hq => Hsub q (or_intror Hq)) e1)
      as (n2 & e & H2).
    exists (Nat.max n1 n2), e. intros m Hm. simpl.
    rewrite H1 by lia. apply H2. lia.
Qed.

Lemma grounded_returns h r :
  grounded h r -> exists n e, forall m, n <= m -> enc m h r = Some e.
Proof.
  induction 1 as [r p Hp Hidx _ IH].
  destruct (operators_result_returns h (_operators p)) with (e0 := placeholder (_type p) (_key p))
    as (n & e & Hn).
  { exact Hidx. }
  { intros q Hq. destruct (IH q Hq) as (k & y & Hk). exists k, y. apply Hk. lia. }
  exists (S n), e. intros [|m] Hm; [lia|]. simpl. rewrite Hp. apply Hn. lia.
Qed.


(** ** C1 *)




(** ** C2 *)


(** C2 (amended): if [p] encodes to [e] and, once both concatenations are
    attached, the operands [a] and [b] encode to [ea] and [eb], then
    [p + a + b] encodes to one [Concat] whose operands are, in attachment
    order, [e] followed by [ea] and [eb] when [e] is not itself a [Concat],
    and the operands of [e] followed by [ea] and [eb] when it is. *)
Theorem add_add_encode h p a b n na nb e ea eb :
  let h' := __add__ p b (__add__ p a h) in
  encode n p h = (Some e, h) ->
  operand_encode na a h' = (Some ea, h') ->
  operand_encode nb b h' = (Some eb, h') ->
  exists m, encode m p h' = (Some (concat_op (concat_operands e ++ [ea; eb])), h').
Proof.
  intros h' He Ha Hb. rewrite encode_reads in He. injection He as He.
  assert (h' = alter (fun x => set_operators
            ((fun ops => ops ++ [_ConcatOperator a; _ConcatOperator b]) (_operators x)) x) p h)
    as Hh'.
  { unfold h', __add__, append_operator. rewrite list_alter_alter_eq.
    apply list_alter_ext; [|reflexivity..]. intros x _. unfold set_operators, compose. simpl.
    rewrite <- app_assoc. reflexivity. }
  destruct (enc_replace_operators
              (fun ops => ops ++ [_ConcatOperator a; _ConcatOperator b]) h p n e He)
    as (k & ph & Hp & Hk & Hframe & Hnew).
  rewrite <- Hh' in Hframe, Hnew.
  assert (forall m, na <= m ->
            operator_result (enc m h') (_ConcatOperator a) e
            = Some (concat_op (concat_operands e ++ [ea]))) as Hopa.
  { intros m Hm. destruct a as [s|q]; simpl in *.
    - injection Ha as <-. reflexivity.
    - rewrite encode_reads in Ha. injection Ha as Ha.
      rewrite (enc_mono h' q ea na m Hm Ha). reflexivity. }
  assert (forall m x, nb <= m ->
            operator_result (enc m h') (_ConcatOperator b) (concat_op x)
            = Some (concat_op (x ++ [eb]))) as Hopb.
  { intros m x Hm. destruct b as [s|q]; simpl in *.
    - injection Hb as <-. reflexivity.
    - rewrite encode_reads in Hb. injection Hb as Hb.
      rewrite (enc_mono h' q eb nb m Hm Hb). reflexivity. }
  set (m := Nat.max k (Nat.max na nb)).
  exists (S m). rewrite encode_reads. f_equal. rewrite Hnew.
  rewrite operators_result_app.
  rewrite (operators_result_mono (enc k h') (enc m h') (_operators ph)
             (fun r y => enc_mono h' r y k m ltac:(lia)) _ e (Hframe _ _ _ Hk)).
  cbn [operators_result]. rewrite Hopa by lia. rewrite Hopb by lia.
  rewrite <- app_assoc. reflexivity.
Qed.



(** ** C3 *)

Lemma getattr_operators_extend field_name ops path :
  getattr_operators field_name (ops ++ [_ProtoOperator path])
  = ops ++ [_ProtoOperator (append_field_path path field_name)].
Proof. unfold getattr_operators. rewrite last_snoc, removelast_last. reflexivity. Qed.

Lemma getattr_operators_new field_name ops :
  (forall path, last ops <> Some (_ProtoOperator path)) ->
  getattr_operators field_name ops = ops ++ [_ProtoOperator field_name].
Proof.
  intros H. unfold getattr_operators.
  destruct (last ops) as [[ | | | | path]|] eqn:E; try reflexivity.
  destruct (H path). reflexivity.
Qed.

Lemma getattr_fold p c t key more : forall (h : heap) path,
  h !! p = Some (mkPlaceholder c [_ProtoOperator path] t key) ->
  foldl (fun h f => __getattr__ p f h) h more !! p
  = Some (mkPlaceholder c [_ProtoOperator (foldl append_field_path path more)] t key).
Proof.
  induction more as [|f more IH]; intros h path Hp; simpl; [assumption|].
  apply IH. unfold __getattr__.
  rewrite (alter_operators_lookup (getattr_operators f) p h _ Hp).
  reflexivity.
Qed.

(** C3: [exec_property("cfg").num_layers.count] encodes to one
    [ProtoFieldPath] operator with path ["num_layers.count"] around the
    [EXEC_PROPERTY] leaf with key ["cfg"]; and, for every key and every
    non-empty sequence of attribute accesses on a new exec-property
    placeholder, the encoding is one such operator around the leaf whose
    path is the accessed names joined by dots. *)
Theorem exec_property_field_path :
  encode 1 0 cfg_num_layers_count
  = (Some (proto_op (placeholder EXEC_PROPERTY "cfg") "num_layers.count"),
     cfg_num_layers_count) /\
  forall (h : heap) key field_name more,
    let p := fst (exec_property key h) in
    let h' := foldl (fun h f => __getattr__ p f h) (snd (exec_property key h))
                (field_name :: more) in
    encode 1 p h'
    = (Some (proto_op (placeholder EXEC_PROPERTY key) (dotted_path field_name more)), h').
Proof.
  split; [reflexivity|].
  intros h key field_name more p h'. rewrite encode_reads. f_equal.
  cbn [enc]. unfold h', dotted_path. cbn [foldl].
  erewrite getattr_fold; [reflexivity|].
  unfold __getattr__, p, exec_property, new_placeholder. cbn [fst snd].
  rewrite (alter_operators_lookup (getattr_operators field_name) _ _
             (mkPlaceholder ExecPropertyPlaceholder [] EXEC_PROPERTY key)); [reflexivity|].
  rewrite lookup_app_r by lia. rewrite Nat.sub_diag. reflexivity.
Qed.

(** ** C10 *)

(** C10: an attribute access [p.field_name] on an exec-property
    placeholder that encodes to [e].  When the last operator of [p] is a
    [ProtoFieldPath] with path [path], the access extends that operator:
    the operators before it stay, it becomes the path
    [path + "." + field_name], no operator is added, [e] is that operator
    around some [e0], and the new encoding is the longer path around the
    same [e0].  When the last operator is anything else (an index, a
    concatenation, also one attached after an earlier [ProtoFieldPath]), or
    there is none, the access adds a new [ProtoFieldPath] operator with path
    [field_name] after all the others, and the new encoding is that
    operator around the whole of [e]. *)
Theorem getattr_extends_last_only (h : heap) p ph field_name n e :
  h !! p = Some ph ->
  encode n p h = (Some e, h) ->
  let h' := __getattr__ p field_name h in
  (forall ops path,
     _operators ph = ops ++ [_ProtoOperator path] ->
     h' !! p = Some (set_operators
                       (ops ++ [_ProtoOperator (path +:+ "." +:+ field_name)]) ph) /\
     exists e0, e = proto_op e0 path /\
       exists m, encode m p h'
                 = (Some (proto_op e0 (path +:+ "." +:+ field_name)), h'))
  /\
  ((forall path, last (_operators ph) <> Some (_ProtoOperator path)) ->
     h' !! p = Some (set_operators (_operators ph ++ [_ProtoOperator field_name]) ph) /\
     exists m, encode m p h' = (Some (proto_op e field_name), h')).
Proof.
  intros Hp He h'. rewrite encode_reads in He. injection He as He.
  destruct (enc_replace_operators (getattr_operators field_name) h p n e He)
    as (k & ph' & Hp' & Hk & Hframe & Hnew).
  rewrite Hp in Hp'. injection Hp' as <-.
  fold (__getattr__ p field_name h) in Hframe, Hnew. fold h' in Hframe, Hnew.
  assert (h' !! p = Some (set_operators (getattr_operators field_name (_operators ph)) ph))
    as Hp'.
  { apply (alter_operators_lookup (getattr_operators field_name) p h ph Hp). }
  split.
  - intros ops path Hops.
    rewrite Hops in *. rewrite getattr_operators_extend in Hp', Hnew.
    unfold append_field_path in Hp', Hnew.
    split; [exact Hp'|].
    rewrite operators_result_app in Hk.
    destruct (operators_result (enc k h) ops (placeholder (_type ph) (_key ph)))
      as [e0|] eqn:E0; [|discriminate].
    simpl in Hk. injection Hk as <-.
    exists e0. split; [reflexivity|].
    exists (S k). rewrite encode_reads. f_equal. rewrite Hnew.
    rewrite operators_result_app, (Hframe _ _ _ E0). reflexivity.
  - intros Hlast. rewrite (getattr_operators_new field_name _ Hlast) in Hp', Hnew.
    split; [assumption|].
    exists (S k). rewrite encode_reads. f_equal. rewrite Hnew.
    rewrite operators_result_app, (Hframe _ _ _ Hk). reflexivity.
Qed.

End encoding.

(** ** The examples, with a signed 32-bit index field *)

#[local] Existing Instance int32_index.




(** C2, as stated, fails: for [p = input('x') + 's'] the prior expression
    is already a [Concat]; [p + 'a' + 'b'] extends that [Concat] to four
    operands and does not have the prior expression as its first operand. *)
Lemma concat_onto_concat_flattens :
  let h' := __add__ 0 (Str "b") (__add__ 0 (Str "a") concat_once) in
  let prior := concat_op [placeholder INPUT_ARTIFACT "x"; value "s"] in
  encode 1 0 concat_once = (Some prior, concat_once) /\
  encode 1 0 h' =
    (Some (concat_op [placeholder INPUT_ARTIFACT "x"; value "s"; value "a"; value "b"]), h') /\
  fst (encode 1 0 h') <> Some (concat_op [prior; value "a"; value "b"]).
Proof. repeat split. discriminate. Qed.

Lemma add_add_encode_witness :
  exists m,
    encode m 1 (__add__ 1 (Str "/v1") (__add__ 1 (Str "/model/") out_plus_model))
    = (Some (concat_op [placeholder OUTPUT_ARTIFACT "out"; placeholder INPUT_ARTIFACT "model";
                        value "/model/"; value "/v1"]),
       __add__ 1 (Str "/v1") (__add__ 1 (Str "/model/") out_plus_model)).
Proof.
  exact (add_add_encode out_plus_model 1 (Str "/model/") (Str "/v1") 2 0 0
           (concat_op [placeholder OUTPUT_ARTIFACT "out"; placeholder INPUT_ARTIFACT "model"])
           (value "/model/") (value "/v1") eq_refl eq_refl eq_refl).
Defined.

(** Both cases: [exec_property('cfg').a.b] has the one operator with path
    ["a.b"], and [exec_property('cfg').a[0].b] has a new operator with path
    ["b"] after the index. *)
Lemma getattr_extends_last_only_witness :
  (__getattr__ 0 "b" cfg_a !! 0
   = Some (mkPlaceholder ExecPropertyPlaceholder [_ProtoOperator "a.b"] EXEC_PROPERTY "cfg") /\
   exists e0,
     proto_op (placeholder EXEC_PROPERTY "cfg") "a" = proto_op e0 "a" /\
     exists m, encode m 0 (__getattr__ 0 "b" cfg_a)
               = (Some (proto_op e0 "a.b"), __getattr__ 0 "b" cfg_a)) /\
  (__getattr__ 0 "b" cfg_a_0 !! 0
   = Some (mkPlaceholder ExecPropertyPlaceholder
             [_ProtoOperator "a"; _IndexOperator 0; _ProtoOperator "b"]
             EXEC_PROPERTY "cfg") /\
   exists m, encode m 0 (__getattr__ 0 "b" cfg_a_0)
     = (Some (proto_op (index_op (proto_op (placeholder EXEC_PROPERTY "cfg") "a") 0) "b"),
        __getattr__ 0 "b" cfg_a_0)).
Proof.
  split.
  - exact (proj1 (getattr_extends_last_only cfg_a 0 _ "b" 1 _ eq_refl eq_refl)
             [] "a" eq_refl).
  - refine (proj2 (getattr_extends_last_only cfg_a_0 0 _ "b" 1 _ eq_refl eq_refl) _).
    intros path. discriminate.
Defined.

End PlaceholderProps.

(* ===================================================================== *)
(** * Properties of output resolution *)
(* ===================================================================== *)

Module OutputsUtilsProps.
Import OutputsUtils.

(** ** Strings and paths *)

Lemma append_cons c s t : String c s +:+ t = String c (s +:+ t).
Proof. reflexivity. Qed.

Lemma append_empty_l t : "" +:+ t = t.
Proof. reflexivity. Qed.

Lemma append_assoc s t u : (s +:+ t) +:+ u = s +:+ (t +:+ u).
Proof.
  induction s as [|c s IH]; [reflexivity|]. rewrite !append_cons, IH. reflexivity.
Qed.

Lemma append_nonempty_r s t : t <> "" -> s +:+ t <> "".
Proof. destruct s; [intros; assumption | rewrite append_cons; discriminate]. Qed.

Lemma append_length s t : String.length (s +:+ t) = String.length s + String.length t.
Proof.
  induction s as [|c s IH]; [reflexivity|]. rewrite append_cons. simpl. rewrite IH. reflexivity.
Qed.

(** The same suffix can be cancelled. *)
Lemma append_inv_r u : forall s t, s +:+ u = t +:+ u -> s = t.
Proof.
  induction s as [|c s IH]; intros [|c' t] E.
  - reflexivity.
  - apply (f_equal String.length) in E.
    rewrite append_empty_l, append_cons in E. cbn [String.length] in E.
    rewrite append_length in E. lia.
  - apply (f_equal String.length) in E.
    rewrite append_empty_l, append_cons in E. cbn [String.length] in E.
    rewrite append_length in E. lia.
  - rewrite !append_cons in E. injection E as -> E. f_equal. apply IH, E.
Qed.

Lemma endswith_sep_append s t : t <> "" -> endswith_sep (s +:+ t) = endswith_sep t.
Proof.
  intros Ht. induction s as [|c s IH]; [reflexivity|].
  rewrite append_cons. simpl. rewrite IH.
  destruct (s +:+ t) eqn:E; [|reflexivity].
  destruct (append_nonempty_r s t Ht E).
Qed.

Lemma no_sep_startswith s : no_sep s = true -> startswith_sep s = false.
Proof. destruct s as [|c s]; [reflexivity|]. simpl. destruct (is_sep c); [discriminate|reflexivity]. Qed.

Lemma no_sep_endswith s : no_sep s = true -> endswith_sep s = false.
Proof.
  induction s as [|c s IH]; [reflexivity|]. simpl.
  destruct (is_sep c); [discriminate|]. simpl. intros H. destruct s; [reflexivity|]. apply IH, H.
Qed.

Lemma no_sep_uint d : no_sep (NilEmpty.string_of_uint d) = true.
Proof. induction d; simpl; try assumption; reflexivity. Qed.

Lemma no_sep_str i : no_sep (str i) = true.
Proof.
  unfold str, NilZero.string_of_int, NilZero.string_of_uint.
  destruct (Z.to_int i) as [d|d]; destruct d; try reflexivity;
    try apply (no_sep_uint (_ _)); simpl; apply (no_sep_uint _).
Qed.

Lemma str_nonempty i : str i <> "".
Proof.
  unfold str, NilZero.string_of_int, NilZero.string_of_uint.
  destruct (Z.to_int i) as [d|d]; destruct d; discriminate.
Qed.

Lemma str_inj i j : str i = str j -> i = j.
Proof.
  intros E. rewrite <- (DecimalZ.of_to i), <- (DecimalZ.of_to j). f_equal.
  assert (forall z, NilZero.int_of_string (str z) = Some (Z.to_int z)) as Hisi.
  { intros z. apply NilZero.isi; destruct z; simpl; try discriminate;
      intros [=E']; exact (DecimalPos.Unsigned.to_uint_nonnil _ E'). }
  pose proof (Hisi i) as Hi. rewrite E, Hisi in Hi. congruence.
Qed.

Lemma join_step_relative path b :
  startswith_sep b = false -> join_step path b = join_prefix path +:+ b.
Proof.
  intros Hb. unfold join_step, join_prefix. rewrite Hb.
  destruct (String.eqb path "" || endswith_sep path); [reflexivity|].
  rewrite append_assoc. reflexivity.
Qed.

Lemma join_step_str path i : join_step path (str i) = join_prefix path +:+ str i.
Proof. apply join_step_relative, no_sep_startswith, no_sep_str. Qed.

Lemma join_step_inside path b :
  path <> "" -> endswith_sep path = false -> startswith_sep b = false ->
  join_step path b = path +:+ "/" +:+ b.
Proof.
  intros Hne Hend Hb. unfold join_step. rewrite Hb, Hend.
  destruct (String.eqb_spec path ""); [contradiction|reflexivity].
Qed.

Lemma join_snoc a p b : join a (p ++ [b]) = join_step (join a p) b.
Proof. unfold join. apply foldl_snoc. Qed.

Lemma upto_last_sep_append x t :
  no_sep t = true -> upto_last_sep (x +:+ "/" +:+ t) = x +:+ "/".
Proof.
  intros Ht. induction x as [|c x IH].
  - rewrite append_empty_l. change ("/" +:+ t) with (String "/" t). simpl.
    assert (upto_last_sep t = "") as ->; [|reflexivity].
    clear -Ht. induction t as [|c t IH]; [reflexivity|]. simpl in *.
    destruct (is_sep c); [discriminate|]. rewrite IH by assumption. reflexivity.
  - rewrite (append_cons c x). cbn [upto_last_sep]. rewrite IH.
    destruct x; reflexivity.
Qed.

Lemma all_sep_append x t : x <> "" -> endswith_sep x = false -> all_sep (x +:+ t) = false.
Proof.
  induction x as [|c x IH]; [contradiction|]. intros _ Hend.
  rewrite append_cons. simpl in *. destruct x as [|c' x].
  - rewrite Hend. reflexivity.
  - rewrite IH by (discriminate || assumption). apply andb_false_r.
Qed.

Lemma rstrip_sep_append x : x <> "" -> endswith_sep x = false -> rstrip_sep (x +:+ "/") = x.
Proof.
  induction x as [|c x IH]; [contradiction|]. intros _ Hend.
  rewrite append_cons. simpl in *. destruct x as [|c' x].
  - simpl. rewrite Hend. reflexivity.
  - rewrite IH by (discriminate || assumption). reflexivity.
Qed.

(** The directory of a file placed in a directory is that directory. *)
Lemma dirname_file x t :
  x <> "" -> endswith_sep x = false -> no_sep t = true ->
  dirname (x +:+ "/" +:+ t) = x.
Proof.
  intros Hne Hend Ht. unfold dirname. rewrite upto_last_sep_append by assumption.
  rewrite all_sep_append by assumption.
  destruct (String.eqb_spec (x +:+ "/") "") as [E|_].
  - destruct (append_nonempty_r x "/" ltac:(discriminate) E).
  - apply rstrip_sep_append; assumption.
Qed.


(** ** [generate_output_artifacts] *)

Section resolver.
Context {ArtifactType : Type} (is_value_artifact : ArtifactType -> bool).
Context `{FileIO}.

Abbreviation Artifact := (@Artifact ArtifactType).
Abbreviation world := (@world ArtifactType _).
Abbreviation PipelineNode := (@PipelineNode ArtifactType).
Abbreviation OutputsResolver := (@OutputsResolver ArtifactType).
Abbreviation output_dict := (output_dict is_value_artifact).
Abbreviation output_messages := (output_messages is_value_artifact).
Abbreviation output_uri := (output_uri is_value_artifact).
Abbreviation execution_dir := (@execution_dir ArtifactType).

Lemma generate_loop execution_id l : forall acc (w : world),
  for_fold l
    (fun output_artifacts '(key, output_spec) =>
       self ← get_self;
       let artifact := output_artifact is_value_artifact self execution_id key output_spec in
       logging_debug ("Creating output artifact uri " +:+ uri artifact +:+ " as directory") ;;
       mret (dict_append key artifact output_artifacts))
    acc w
  = (Some (output_dict (self_obj w) execution_id l acc),
     mkWorld (self_obj w) (store w) (calls w)
       (debug_log w ++ output_messages (self_obj w) execution_id l)).
Proof.
  match goal with |- context [for_fold _ ?b] => set (body := b) end.
  induction l as [|[key t] l IH]; intros acc w.
  - simpl. rewrite app_nil_r. destruct w; reflexivity.
  - assert (body acc (key, t) w
            = (Some (dict_append key
                       (output_artifact is_value_artifact (self_obj w) execution_id key t) acc),
               mkWorld (self_obj w) (store w) (calls w)
                 (debug_log w ++ output_messages (self_obj w) execution_id [(key, t)])))
      as Hbody by reflexivity.
    cbn [for_fold]. unfold mbind at 1, IO_bind. rewrite Hbody, IH.
    cbn [self_obj store calls debug_log]. rewrite <- app_assoc. reflexivity.
Qed.

(** [generate_output_artifacts] always returns; it changes the debug log
    and nothing else. *)
Lemma generate_output_artifacts_run execution_id (w : world) :
  generate_output_artifacts is_value_artifact execution_id w
  = (Some (output_dict (self_obj w) execution_id (outputs (_pipeline_node (self_obj w))) []),
     mkWorld (self_obj w) (store w) (calls w)
       (debug_log w ++ output_messages (self_obj w) execution_id
                         (outputs (_pipeline_node (self_obj w))))).
Proof.
  unfold generate_output_artifacts. unfold mbind at 1, IO_bind. cbn [get_self].
  apply generate_loop.
Qed.

Lemma dict_append_new (key : string) (a : Artifact) (d : list (string * list Artifact)) :
  ~ In key (map fst d) -> dict_append key a d = d ++ [(key, [a])].
Proof.
  induction d as [|[k l] d IH]; intros Hk; [reflexivity|].
  cbn [dict_append app]. destruct (String.eqb_spec k key) as [->|Hne].
  - destruct Hk. left. reflexivity.
  - rewrite IH; [reflexivity|]. intros Hin. apply Hk. right. exact Hin.
Qed.

(** With pairwise different keys, every entry of the output map adds one
    item to the dictionary, after those that are there. *)
Lemma output_dict_items self execution_id l : forall acc,
  NoDup (map fst l) ->
  (forall k, In k (map fst l) -> ~ In k (map fst acc)) ->
  output_dict self execution_id l acc
  = acc ++ map (output_item is_value_artifact self execution_id) l.
Proof.
  induction l as [|[k0 t0] l IH]; intros acc Hnd Hacc.
  - cbn. rewrite app_nil_r. reflexivity.
  - cbn [map fst] in Hnd. apply NoDup_cons in Hnd as [Hk0 Hnd].
    unfold output_dict in *. cbn [foldl fst snd map].
    rewrite dict_append_new by (apply Hacc; left; reflexivity).
    rewrite IH; [rewrite <- app_assoc; reflexivity | exact Hnd |].
    intros k Hk. rewrite map_app. cbn [map fst]. intros [Hin|[<-|[]]]%in_app_or.
    + apply (Hacc k); [right; exact Hk | exact Hin].
    + apply Hk0, list_elem_of_In, Hk.
Qed.

(** The dictionary returned for an output map with pairwise different
    keys. *)
Lemma generate_output_artifacts_items self execution_id :
  NoDup (map fst (outputs (_pipeline_node self))) ->
  output_dict self execution_id (outputs (_pipeline_node self)) []
  = map (output_item is_value_artifact self execution_id) (outputs (_pipeline_node self)).
Proof.
  intros Hnd. rewrite output_dict_items; [reflexivity | exact Hnd |].
  intros k _ [].
Qed.

Lemma dict_get_items self execution_id key (l : list (string * ArtifactType)) :
  dict_get key (map (output_item is_value_artifact self execution_id) l)
  = (fun t => [output_artifact is_value_artifact self execution_id key t]) <$> dict_get key l.
Proof.
  induction l as [|[k t] l IH]; [reflexivity|].
  cbn [map output_item dict_get fst snd].
  destruct (String.eqb_spec k key) as [->|Hne]; [reflexivity | exact IH].
Qed.

(** Each declared output key gets exactly one artifact. *)
Lemma generate_output_artifacts_lookup self execution_id key :
  NoDup (map fst (outputs (_pipeline_node self))) ->
  dict_get key (output_dict self execution_id (outputs (_pipeline_node self)) [])
  = (fun t => [output_artifact is_value_artifact self execution_id key t])
      <$> dict_get key (outputs (_pipeline_node self)).
Proof.
  intros Hnd. rewrite generate_output_artifacts_items by exact Hnd. apply dict_get_items.
Qed.

Lemma dict_get_In {V} key (v : V) (d : list (string * V)) :
  dict_get key d = Some v -> In (key, v) d.
Proof.
  induction d as [|[k v0] d IH]; [discriminate|]. cbn [dict_get].
  destruct (String.eqb_spec k key) as [->|Hne].
  - intros [= ->]. left. reflexivity.
  - intros Hd. right. exact (IH Hd).
Qed.

Lemma execution_dir_shape node spec key execution_id :
  execution_dir node spec key execution_id
  = join_prefix (join (pipeline_root spec) [node_info_id node; key]) +:+ str execution_id.
Proof.
  unfold execution_dir.
  change (join_step (join (pipeline_root spec) [node_info_id node; key]) (str execution_id)
          = join_prefix (join (pipeline_root spec) [node_info_id node; key]) +:+ str execution_id).
  apply join_step_str.
Qed.

Lemma execution_dir_nonempty node spec key execution_id :
  execution_dir node spec key execution_id <> "".
Proof. rewrite execution_dir_shape. apply append_nonempty_r, str_nonempty. Qed.

Lemma execution_dir_endswith node spec key execution_id :
  endswith_sep (execution_dir node spec key execution_id) = false.
Proof.
  rewrite execution_dir_shape, endswith_sep_append by apply str_nonempty.
  apply no_sep_endswith, no_sep_str.
Qed.

Lemma execution_dir_inj node spec key i j :
  execution_dir node spec key i = execution_dir node spec key j -> i = j.
Proof. rewrite !execution_dir_shape. intros E. apply String.app_inj in E. apply str_inj, E. Qed.

Lemma value_file_shape node spec key execution_id :
  join (execution_dir node spec key execution_id) [_VALUE_ARTIFACT_FILE_NAME]
  = execution_dir node spec key execution_id +:+ "/" +:+ "value".
Proof.
  apply join_step_inside;
    [apply execution_dir_nonempty | apply execution_dir_endswith | reflexivity].
Qed.

Lemma output_uri_cases node spec key t execution_id :
  output_uri node spec key t execution_id
  = if is_value_artifact t
    then join (execution_dir node spec key execution_id) [_VALUE_ARTIFACT_FILE_NAME]
    else execution_dir node spec key execution_id.
Proof.
  unfold output_uri, execution_dir. destruct (is_value_artifact t).
  - reflexivity.
  - rewrite app_nil_r. reflexivity.
Qed.

Lemma output_artifact_init node info spec execution_id key t :
  output_artifact is_value_artifact (__init__ node info spec) execution_id key t
  = mkArtifact t (output_uri node spec key t execution_id)
      (id info +:+ ":" +:+ pipeline_run_id spec +:+ ":" +:+ node_info_id node
       +:+ ":" +:+ key +:+ ":" +:+ "0").
Proof.
  rewrite output_uri_cases. unfold output_artifact, isinstance_ValueArtifact, execution_dir.
  cbn. destruct (is_value_artifact t); reflexivity.
Qed.

Lemma output_uri_inj node spec key t i j :
  output_uri node spec key t i = output_uri node spec key t j -> i = j.
Proof.
  rewrite !output_uri_cases. destruct (is_value_artifact t).
  - rewrite !value_file_shape. intros E. rewrite <- !append_assoc in E.
    apply append_inv_r, append_inv_r in E. apply execution_dir_inj in E. exact E.
  - apply execution_dir_inj.
Qed.


(** ** C4 *)

(** C4 (amended): for every declared output key (the keys of the output
    map being pairwise different) and every execution id,
    [generate_output_artifacts] returns for the key one descriptor whose
    name is [pipelineId:runId:nodeId:outputKey:0], the same for every
    execution id, and whose uri is
    [join(pipelineRoot, nodeId, outputKey, executionId)], with the file
    name ["value"] joined on when the output is value-typed; uris for
    different execution ids differ; and for pipeline ["p"], run ["r1"],
    node ["Trainer"], key ["model"] (not value-typed), execution id 7 the
    name is ["p:r1:Trainer:model:0"] and the uri ends in
    [Trainer/model/7]. *)
Theorem generate_output_artifacts_name_uri
    (node : PipelineNode) info spec (w : world) key t :
  self_obj w = __init__ node info spec ->
  NoDup (map fst (outputs node)) ->
  dict_get key (outputs node) = Some t ->
  let uri_of execution_id :=
    join (pipeline_root spec)
      ([node_info_id node; key; str execution_id]
       ++ if is_value_artifact t then ["value"] else []) in
  let name_of :=
    id info +:+ ":" +:+ pipeline_run_id spec +:+ ":" +:+ node_info_id node
    +:+ ":" +:+ key +:+ ":" +:+ "0" in
  (forall execution_id, exists d,
     fst (generate_output_artifacts is_value_artifact execution_id w) = Some d /\
     dict_get key d = Some [mkArtifact t (uri_of execution_id) name_of]) /\
  (forall i j, i <> j -> uri_of i <> uri_of j) /\
  (id info = "p" -> pipeline_run_id spec = "r1" -> node_info_id node = "Trainer" ->
   key = "model" -> is_value_artifact t = false ->
   name_of = "p:r1:Trainer:model:0" /\
   exists prefix, uri_of 7%Z = prefix +:+ "Trainer/model/7").
Proof.
  intros Hself Hnd Hkey uri_of name_of. split; [|split].
  - intros execution_id. rewrite generate_output_artifacts_run. eexists. split; [reflexivity|].
    rewrite generate_output_artifacts_lookup by (rewrite Hself; exact Hnd).
    rewrite Hself. cbn [__init__ _pipeline_node].
    rewrite Hkey. cbn [fmap option_map option_fmap].
    rewrite (output_artifact_init node info spec execution_id key t). reflexivity.
  - intros i j Hij E. apply Hij. exact (output_uri_inj node spec key t i j E).
  - intros Hp Hr Hn Hk Ht. subst name_of uri_of. cbn beta.
    rewrite Hp, Hr, Hn, Hk, Ht. split; [reflexivity|].
    exists (join_prefix (pipeline_root spec)).
    rewrite app_nil_r. unfold join. cbn [foldl].
    rewrite (join_step_relative (pipeline_root spec) "Trainer") by reflexivity.
    rewrite (join_step_inside _ "model");
      [| apply append_nonempty_r; discriminate
       | rewrite endswith_sep_append by discriminate; reflexivity
       | reflexivity].
    rewrite (join_step_inside _ (str 7));
      [| apply append_nonempty_r; discriminate
       | rewrite endswith_sep_append by discriminate; reflexivity
       | reflexivity].
    rewrite !append_assoc. reflexivity.
Qed.

(** ** C5 *)

(** C5: for every resolver state, storage state and execution id,
    [generate_output_artifacts] returns, issues no call of the storage
    abstraction, and leaves the storage and the resolver object as they
    were. *)
Theorem generate_output_artifacts_no_storage execution_id (w : world) :
  is_Some (fst (generate_output_artifacts is_value_artifact execution_id w)) /\
  calls (snd (generate_output_artifacts is_value_artifact execution_id w)) = calls w /\
  store (snd (generate_output_artifacts is_value_artifact execution_id w)) = store w /\
  self_obj (snd (generate_output_artifacts is_value_artifact execution_id w)) = self_obj w.
Proof.
  rewrite generate_output_artifacts_run. cbn [fst snd calls store self_obj].
  split; [eexists; reflexivity|]. repeat split.
Qed.

(** ** C6 *)

Lemma storage_call_ok c op (w w' : world) :
  storage_call c op w = (Some tt, w') ->
  exists s', op (store w) = Some s' /\
             w' = mkWorld (self_obj w) s' (calls w ++ [c]) (debug_log w).
Proof.
  unfold storage_call. destruct (op (store w)) as [s'|]; [|discriminate].
  intros [= <-]. exists s'. split; reflexivity.
Qed.

Lemma get_stateful_working_directory_run (w : world) :
  let dir := join (_node_dir (self_obj w)) [_pipeline_run_id (self_obj w); _STATEFUL_WORKING_DIR] in
  get_stateful_working_directory w
  = match fileio_makedirs dir (store w) with
    | Some s' => (Some dir, mkWorld (self_obj w) s' (calls w ++ [Makedirs dir]) (debug_log w))
    | None => (None, mkWorld (self_obj w) (store w) (calls w ++ [Makedirs dir]) (debug_log w))
    end.
Proof.
  intros dir. unfold get_stateful_working_directory, mbind, IO_bind, get_self, makedirs, storage_call.
  fold dir. destruct (fileio_makedirs dir (store w)); reflexivity.
Qed.

(** C6: when [get_stateful_working_directory] returns, the path is
    [join(pipelineRoot, nodeId, runId, "stateful_working_dir")], which has no
    execution id in it, and the directory exists; a second call returns
    too, with the same path, and the directory exists after it; and a call
    made after [generate_output_artifacts] for any execution id returns
    that same path. *)
Theorem get_stateful_working_directory_stable
    (node : PipelineNode) info spec (w w1 : world) d1 :
  self_obj w = __init__ node info spec ->
  get_stateful_working_directory w = (Some d1, w1) ->
  d1 = join (pipeline_root spec)
         [node_info_id node; pipeline_run_id spec; "stateful_working_dir"] /\
  fileio_isdir d1 (store w1) = true /\
  (exists w2,
     get_stateful_working_directory w1 = (Some d1, w2) /\
     fileio_isdir d1 (store w2) = true /\
     get_stateful_working_directory_twice w = (Some (d1, d1), w2)) /\
  (forall execution_id d w3,
     get_stateful_working_directory
       (snd (generate_output_artifacts is_value_artifact execution_id w1)) = (Some d, w3) ->
     d = d1).
Proof.
  intros Hself Hrun. rewrite get_stateful_working_directory_run in Hrun.
  rewrite Hself in Hrun. cbn [__init__ _node_dir _pipeline_run_id] in Hrun.
  set (dir := join (join (pipeline_root spec) [node_info_id node])
                [pipeline_run_id spec; _STATEFUL_WORKING_DIR]) in *.
  destruct (fileio_makedirs dir (store w)) as [s1|] eqn:Hmk; [|discriminate].
  injection Hrun as <- <-.
  pose proof (makedirs_isdir dir (store w) s1 Hmk) as Hdir.
  split; [reflexivity|]. split; [exact Hdir|]. split.
  - destruct (makedirs_exist_ok dir s1 Hdir) as [s2 Hmk2].
    assert (get_stateful_working_directory
              (mkWorld (__init__ node info spec) s1 (calls w ++ [Makedirs dir]) (debug_log w))
            = (Some dir, mkWorld (__init__ node info spec) s2
                           ((calls w ++ [Makedirs dir]) ++ [Makedirs dir]) (debug_log w)))
      as Hsecond.
    { rewrite get_stateful_working_directory_run.
      cbn [self_obj store calls debug_log __init__ _node_dir _pipeline_run_id].
      fold dir. rewrite Hmk2. reflexivity. }
    eexists. split; [exact Hsecond|]. split.
    + exact (makedirs_isdir dir s1 s2 Hmk2).
    + unfold get_stateful_working_directory_twice, mbind at 1, IO_bind.
      rewrite get_stateful_working_directory_run, Hself.
      cbn [__init__ _node_dir _pipeline_run_id]. fold dir. rewrite Hmk.
      unfold mbind at 1, IO_bind. rewrite Hsecond. reflexivity.
  - intros execution_id d w3. rewrite generate_output_artifacts_run.
    rewrite get_stateful_working_directory_run.
    cbn [snd self_obj store calls debug_log __init__ _node_dir _pipeline_run_id]. fold dir.
    destruct (fileio_makedirs dir s1); [|discriminate]. intros [= <- _]. reflexivity.
Qed.

(** ** C7 *)

Abbreviation made := (output_dir_made is_value_artifact).

Lemma made_after_makedirs (a : Artifact) p s s' :
  fileio_makedirs p s = Some s' -> made a s -> made a s'.
Proof.
  intros Hmk. unfold output_dir_made. destruct (isinstance_ValueArtifact is_value_artifact a).
  - intros [Hd Hf]. split.
    + exact (makedirs_keeps_dirs p s s' _ Hmk Hd).
    + exact (makedirs_keeps_files p s s' _ _ Hmk Hf).
  - exact (makedirs_keeps_dirs p s s' _ Hmk).
Qed.

Lemma made_after_write (a : Artifact) p s s' :
  fileio_write p "" s = Some s' -> made a s -> made a s'.
Proof.
  intros Hwr. unfold output_dir_made. destruct (isinstance_ValueArtifact is_value_artifact a).
  - intros [Hd Hf]. split.
    + exact (write_keeps_dirs p "" s s' _ Hwr Hd).
    + destruct (decide (uri a = p)) as [->|Hne].
      * exact (write_read p "" s s' Hwr).
      * exact (write_keeps_files p "" s s' _ _ Hwr Hne Hf).
  - exact (write_keeps_dirs p "" s s' _ Hwr).
Qed.

Lemma make_output_dir_ok (a : Artifact) (w w' : world) :
  make_output_dir is_value_artifact a w = (Some tt, w') ->
  calls w' = calls w ++ output_dir_calls is_value_artifact a /\
  made a (store w') /\
  forall a0 : Artifact, made a0 (store w) -> made a0 (store w').
Proof.
  unfold make_output_dir, output_dir_calls, output_dir_made at 1.
  destruct (isinstance_ValueArtifact is_value_artifact a).
  - unfold mbind, IO_bind, makedirs, open_write.
    destruct (storage_call (Makedirs (dirname (uri a))) _ w) as [[[]|] w1] eqn:E1; [|discriminate].
    apply storage_call_ok in E1 as (s1 & Hmk & ->).
    intros (s2 & Hwr & ->)%storage_call_ok. cbn [store calls] in *.
    rewrite <- app_assoc. split; [reflexivity|]. split.
    + split.
      * apply (write_keeps_dirs _ _ _ _ _ Hwr), (makedirs_isdir _ _ _ Hmk).
      * exact (write_read _ _ _ _ Hwr).
    + intros a0 H0. apply (made_after_write a0 _ _ _ Hwr), (made_after_makedirs a0 _ _ _ Hmk), H0.
  - unfold makedirs. intros (s1 & Hmk & ->)%storage_call_ok. cbn [store calls].
    split; [reflexivity|]. split.
    + exact (makedirs_isdir _ _ _ Hmk).
    + intros a0 H0. exact (made_after_makedirs a0 _ _ _ Hmk H0).
Qed.

Lemma make_output_dir_list_ok (l : list Artifact) : forall (w w' : world),
  for_each l (make_output_dir is_value_artifact) w = (Some tt, w') ->
  calls w' = calls w ++ flat_map (output_dir_calls is_value_artifact) l /\
  (forall a, In a l -> made a (store w')) /\
  forall a0 : Artifact, made a0 (store w) -> made a0 (store w').
Proof.
  induction l as [|a l IH]; intros w w'.
  - intros [= <-]. rewrite app_nil_r. repeat split; [intros a [] | intros; assumption].
  - cbn [for_each]. unfold mbind at 1, IO_bind.
    destruct (make_output_dir is_value_artifact a w) as [[[]|] w1] eqn:E1; [|discriminate].
    apply make_output_dir_ok in E1 as (Hc1 & Hm1 & Hk1).
    intros (Hc & Hm & Hk)%IH. cbn [flat_map]. rewrite Hc, Hc1, <- app_assoc.
    split; [reflexivity|]. split.
    + intros a0 [<-|Hin]; [apply Hk, Hm1 | apply Hm, Hin].
    + intros a0 H0. apply Hk, Hk1, H0.
Qed.

Lemma make_output_dirs_loop_ok (l : list (string * list Artifact)) : forall (w w' : world),
  for_each l (fun '(_, artifact_list) =>
    for_each artifact_list (make_output_dir is_value_artifact)) w = (Some tt, w') ->
  calls w' = calls w
             ++ flat_map (fun kv => flat_map (output_dir_calls is_value_artifact) (snd kv)) l /\
  (forall k al a, In (k, al) l -> In a al -> made a (store w')) /\
  forall a0 : Artifact, made a0 (store w) -> made a0 (store w').
Proof.
  induction l as [|[k al] l IH]; intros w w'.
  - intros [= <-]. rewrite app_nil_r. repeat split; [intros ? ? ? [] | intros; assumption].
  - cbn [for_each]. unfold mbind at 1, IO_bind.
    destruct (for_each al (make_output_dir is_value_artifact) w) as [[[]|] w1] eqn:E1;
      [|discriminate].
    apply make_output_dir_list_ok in E1 as (Hc1 & Hm1 & Hk1).
    intros (Hc & Hm & Hk)%IH. cbn [flat_map snd]. rewrite Hc, Hc1, <- app_assoc.
    split; [reflexivity|]. split.
    + intros k0 al0 a0 [[= <- <-]|Hin] Ha; [apply Hk, Hm1, Ha | exact (Hm k0 al0 a0 Hin Ha)].
    + intros a0 H0. apply Hk, Hk1, H0.
Qed.

(** C7: let [dir] be the per-execution directory
    [join(pipelineRoot, nodeId, outputKey, executionId)] of an output key.
    For a value-typed output the uri set by [generate_output_artifacts] is
    [dir] with the file name ["value"] joined on, whose parent directory is
    [dir]; [make_output_dirs] calls [makedirs] on that parent and writes
    the empty string to the uri, and when it returns the directory exists
    and the file exists and is empty.  For any other output the uri is
    [dir] itself; [make_output_dirs] calls [makedirs] on it, and when it
    returns the directory exists.  These are all the storage calls, made
    in the order of the items of the dictionary.  The keys of the output
    map are pairwise different. *)
Theorem make_output_dirs_creates
    (node : PipelineNode) info spec (w w1 w2 : world) execution_id d :
  self_obj w = __init__ node info spec ->
  NoDup (map fst (outputs node)) ->
  generate_output_artifacts is_value_artifact execution_id w = (Some d, w1) ->
  make_output_dirs is_value_artifact d w1 = (Some tt, w2) ->
  calls w2 = calls w ++ flat_map (fun kv =>
               flat_map (output_dir_calls is_value_artifact) (snd kv)) d /\
  forall key t,
    dict_get key (outputs node) = Some t ->
    let dir := join (pipeline_root spec) [node_info_id node; key; str execution_id] in
    exists a,
      dict_get key d = Some [a] /\
      if is_value_artifact t then
        uri a = join dir [_VALUE_ARTIFACT_FILE_NAME] /\
        uri a = dir +:+ "/value" /\
        dirname (uri a) = dir /\
        output_dir_calls is_value_artifact a = [Makedirs dir; OpenWrite (dir +:+ "/value") ""] /\
        fileio_isdir dir (store w2) = true /\
        fileio_read (dir +:+ "/value") (store w2) = Some ""
      else
        uri a = dir /\
        output_dir_calls is_value_artifact a = [Makedirs dir] /\
        fileio_isdir dir (store w2) = true.
Proof.
  intros Hself Hnd Hgen Hmake. rewrite generate_output_artifacts_run in Hgen.
  injection Hgen as <- <-. unfold make_output_dirs in Hmake.
  apply make_output_dirs_loop_ok in Hmake as (Hc & Hm & _). cbn [calls] in Hc.
  split; [exact Hc|].
  intros key t Hkey dir.
  set (a := output_artifact is_value_artifact (self_obj w) execution_id key t).
  assert (dict_get key (output_dict (self_obj w) execution_id
                          (outputs (_pipeline_node (self_obj w))) []) = Some [a]) as Hd.
  { rewrite generate_output_artifacts_lookup by (rewrite Hself; exact Hnd).
    rewrite Hself. cbn [__init__ _pipeline_node].
    rewrite Hkey. subst a. rewrite Hself. reflexivity. }
  assert (made a (store w2)) as Hmade.
  { apply (Hm key [a] a); [|left; reflexivity]. apply dict_get_In, Hd. }
  exists a. split; [exact Hd|].
  assert (a = mkArtifact t (output_uri node spec key t execution_id)
                (id info +:+ ":" +:+ pipeline_run_id spec +:+ ":" +:+ node_info_id node
                 +:+ ":" +:+ key +:+ ":" +:+ "0")) as Ha.
  { subst a. rewrite Hself. apply output_artifact_init. }
  unfold output_dir_made, output_dir_calls, isinstance_ValueArtifact in *.
  rewrite Ha in *. cbn [artifact_type uri] in *.
  rewrite output_uri_cases in *. fold (execution_dir node spec key execution_id) in dir.
  destruct (is_value_artifact t).
  - rewrite value_file_shape in *.
    assert (dirname (dir +:+ "/" +:+ "value") = dir) as Hdn.
    { apply dirname_file;
        [apply execution_dir_nonempty | apply execution_dir_endswith | reflexivity]. }
    fold dir in Hmade |- *. rewrite Hdn in *. destruct Hmade as [Hdir Hfile].
    repeat split; try assumption; try reflexivity.
    symmetry. apply value_file_shape.
  - repeat split. exact Hmade.
Qed.

End resolver.

(** ** The examples, run on the in-memory storage *)

Lemma trainer_node_keys : NoDup (map fst (outputs trainer_node)).
Proof. apply (bool_decide_unpack _). vm_compute. exact I. Qed.

(** C4, as stated, fails: the output ["accuracy"] of the example node is
    value-typed, and for execution id 7 its uri is not
    [join("root", "Trainer", "accuracy", "7")] but that path with
    ["value"] joined on. *)
Lemma value_output_uri_is_not_execution_dir :
  exists d a,
    fst (generate_output_artifacts example_is_value 7 trainer_world) = Some d /\
    dict_get "accuracy" d = Some [a] /\
    uri a = "root/Trainer/accuracy/7/value" /\
    join "root" ["Trainer"; "accuracy"; str 7] = "root/Trainer/accuracy/7" /\
    uri a <> join "root" ["Trainer"; "accuracy"; str 7].
Proof.
  eexists. eexists. split; [reflexivity|].
  split; [reflexivity|].
  repeat split. discriminate.
Qed.

Lemma generate_output_artifacts_name_uri_witness :
  (forall execution_id, exists d,
     fst (generate_output_artifacts example_is_value execution_id trainer_world) = Some d /\
     dict_get "model" d
     = Some [mkArtifact Model (join "root" ["Trainer"; "model"; str execution_id])
               "p:r1:Trainer:model:0"]) /\
  (forall i j, i <> j ->
     join "root" ["Trainer"; "model"; str i] <> join "root" ["Trainer"; "model"; str j]) /\
  exists prefix, join "root" ["Trainer"; "model"; str 7] = prefix +:+ "Trainer/model/7".
Proof.
  destruct (generate_output_artifacts_name_uri example_is_value trainer_node
              (mkPipelineInfo "p") (mkPipelineRuntimeSpec "root" "r1")
              trainer_world "model" Model eq_refl trainer_node_keys eq_refl)
    as (Hgen & Hinj & Hscenario).
  split; [exact Hgen|]. split; [exact Hinj|].
  exact (proj2 (Hscenario eq_refl eq_refl eq_refl eq_refl eq_refl)).
Defined.

Lemma get_stateful_working_directory_stable_witness :
  fst (get_stateful_working_directory trainer_world)
  = Some "root/Trainer/r1/stateful_working_dir" /\
  fileio_isdir "root/Trainer/r1/stateful_working_dir"
    (store (snd (get_stateful_working_directory trainer_world))) = true /\
  fst (get_stateful_working_directory_twice trainer_world)
  = Some ("root/Trainer/r1/stateful_working_dir", "root/Trainer/r1/stateful_working_dir").
Proof.
  destruct (get_stateful_working_directory_stable example_is_value trainer_node
              (mkPipelineInfo "p") (mkPipelineRuntimeSpec "root" "r1")
              trainer_world (snd (get_stateful_working_directory trainer_world))
              "root/Trainer/r1/stateful_working_dir" eq_refl eq_refl)
    as (_ & Hdir & (w2 & _ & _ & Htwice) & _).
  split; [reflexivity|]. split; [exact Hdir|]. rewrite Htwice. reflexivity.
Defined.

Lemma make_output_dirs_creates_witness :
  let w1 := snd (generate_output_artifacts example_is_value 7 trainer_world) in
  let d := default [] (fst (generate_output_artifacts example_is_value 7 trainer_world)) in
  let w2 := snd (make_output_dirs example_is_value d w1) in
  fileio_isdir "root/Trainer/model/7" (store w2) = true /\
  fileio_isdir "root/Trainer/accuracy/7" (store w2) = true /\
  fileio_read "root/Trainer/accuracy/7/value" (store w2) = Some "".
Proof.
  intros w1 d w2.
  destruct (make_output_dirs_creates example_is_value trainer_node
              (mkPipelineInfo "p") (mkPipelineRuntimeSpec "root" "r1")
              trainer_world w1 w2 7 d eq_refl trainer_node_keys eq_refl eq_refl) as [_ Hkeys].
  destruct (Hkeys "model" Model eq_refl) as (a & _ & _ & _ & Hmodel).
  destruct (Hkeys "accuracy" Integer eq_refl) as (a' & _ & _ & _ & _ & _ & Hacc & Hfile).
  split; [exact Hmodel|]. split; [exact Hacc | exact Hfile].
Defined.

End OutputsUtilsProps.

(* ===================================================================== *)
(** * Properties of the graph compiler *)
(* ===================================================================== *)

Module CompilerProps.
Import Compiler.

Lemma compile_all_inr {A B} (f : A -> CompilationError + B) l :
  (forall x, In x l -> exists y, f x = inr y) ->
  exists ys, compile_all f l = inr ys.
Proof.
  induction l as [|x l IH]; intros Hf; [exists []; reflexivity|].
  destruct (Hf x (or_introl eq_refl)) as [y Hy].
  destruct (IH (fun x' Hx' => Hf x' (or_intror Hx'))) as [ys Hys].
  exists (y :: ys). simpl. rewrite Hy, Hys. reflexivity.
Qed.

Lemma compile_all_inl {A B} (f : A -> CompilationError + B) l x e :
  In x l -> f x = inl e -> exists e', compile_all f l = inl e'.
Proof.
  induction l as [|x0 l IH]; intros Hin Hx; [destruct Hin|]. simpl.
  destruct (f x0) as [e0|y0] eqn:E0; [exists e0; reflexivity|].
  destruct Hin as [->|Hin]; [congruence|].
  destruct (IH Hin Hx) as [e' ->]. exists e'. reflexivity.
Qed.

Lemma find_node_none earlier producer_id :
  (forall c, In c earlier -> node_id c <> producer_id) ->
  find_node earlier producer_id = None.
Proof.
  induction earlier as [|c earlier IH]; intros Hne; [reflexivity|]. simpl.
  destruct (String.eqb_spec (node_id c) producer_id) as [E|_].
  - destruct (Hne c (or_introl eq_refl) E).
  - apply IH. intros c' Hc'. apply Hne. right. assumption.
Qed.

Lemma find_node_some earlier producer_id :
  (exists c, In c earlier /\ node_id c = producer_id) ->
  exists c, find_node earlier producer_id = Some c /\ In c earlier /\ node_id c = producer_id.
Proof.
  induction earlier as [|c0 earlier IH]; intros (c & Hin & Hc); [destruct Hin|]. simpl.
  destruct (String.eqb_spec (node_id c0) producer_id) as [E|Hne].
  - exists c0. repeat split; [left; reflexivity | assumption].
  - destruct Hin as [->|Hin]; [contradiction|].
    destruct IH as (c' & Hf & Hin' & Hc'); [exists c; split; assumption|].
    exists c'. repeat split; [assumption | right; assumption | assumption].
Qed.

Lemma find_output_some specs output_key t :
  In (output_key, t) specs -> exists t', find_output specs output_key = Some t'.
Proof.
  induction specs as [|[k t0] specs IH]; intros Hin; [destruct Hin|]. simpl.
  destruct (String.eqb_spec k output_key) as [_|Hne]; [exists t0; reflexivity|].
  destruct Hin as [[= -> ->]|Hin]; [contradiction|]. apply IH, Hin.
Qed.

Lemma compile_node_inr earlier n c :
  compile_node earlier n = inr c -> compiled_from n c.
Proof.
  unfold compile_node.
  destruct (compile_all (compile_input earlier (id n)) (inputs n)); [discriminate|].
  destruct (compile_all (compile_exec_property (id n)) (exec_properties n)); [discriminate|].
  intros [= <-]. repeat split.
Qed.

Lemma compiled_from_In_l before earlier m :
  Forall2 compiled_from before earlier -> In m before ->
  exists c, In c earlier /\ compiled_from m c.
Proof.
  induction 1 as [|m0 c0 before earlier H0 _ IH]; intros Hin; [destruct Hin|].
  destruct Hin as [<-|Hin].
  - exists c0. split; [left; reflexivity | assumption].
  - destruct (IH Hin) as (c & Hc & Hmc). exists c. split; [right|]; assumption.
Qed.

Lemma compiled_from_In_r before earlier c :
  Forall2 compiled_from before earlier -> In c earlier ->
  exists m, In m before /\ compiled_from m c.
Proof.
  induction 1 as [|m0 c0 before earlier H0 _ IH]; intros Hin; [destruct Hin|].
  destruct Hin as [<-|Hin].
  - exists m0. split; [left; reflexivity | assumption].
  - destruct (IH Hin) as (m & Hm & Hmc). exists m. split; [right|]; assumption.
Qed.

(** A node whose bindings are all resolved by the nodes compiled so far
    and whose execution properties are all supported compiles. *)
Lemma compile_node_succeeds before earlier n :
  Forall2 compiled_from before earlier ->
  bindings_declared before n ->
  output_keys_declared before n ->
  exec_properties_supported n ->
  exists c, compile_node earlier n = inr c.
Proof.
  intros Hfrom Hdecl Hkeys Hprops. unfold compile_node.
  destruct (compile_all_inr (compile_input earlier (id n)) (inputs n)) as [specs ->].
  { intros [key [producer_id output_key|t]] Hin; unfold compile_input; cbn [fst snd];
      [|eexists; reflexivity].
    destruct (Hdecl _ _ _ Hin) as (m & Hm & Hid).
    destruct (compiled_from_In_l before earlier m Hfrom Hm) as (c0 & Hc0 & Hid0 & _).
    destruct (find_node_some earlier producer_id) as (c & -> & Hc & Hcid).
    { exists c0. split; [assumption | congruence]. }
    destruct (compiled_from_In_r before earlier c Hfrom Hc) as (m' & Hm' & Hid' & _ & Hout).
    destruct (Hkeys _ _ _ m' Hin Hm' ltac:(congruence)) as [t Ht].
    rewrite Hout. destruct (find_output_some _ _ _ Ht) as [t' ->].
    eexists; reflexivity. }
  destruct (compile_all_inr (compile_exec_property (id n)) (exec_properties n)) as [props ->].
  { intros [name [v|pname default|e|description]] Hin; unfold compile_exec_property;
      cbn [fst snd]; try (eexists; reflexivity).
    destruct (Hprops _ _ Hin). }
  eexists; reflexivity.
Qed.

Lemma compile_nodes_succeeds ns : forall before earlier,
  Forall2 compiled_from before earlier ->
  (forall middle n after,
     ns = middle ++ n :: after ->
     bindings_declared (before ++ middle) n /\
     output_keys_declared (before ++ middle) n /\
     exec_properties_supported n) ->
  exists cs, compile_nodes earlier ns = inr cs /\ Forall2 compiled_from (before ++ ns) cs.
Proof.
  induction ns as [|n ns IH]; intros before earlier Hfrom Hok.
  - exists earlier. rewrite app_nil_r. split; [reflexivity | assumption].
  - destruct (Hok [] n ns eq_refl) as (Hdecl & Hkeys & Hprops). rewrite app_nil_r in *.
    destruct (compile_node_succeeds before earlier n Hfrom Hdecl Hkeys Hprops) as [c Hc].
    cbn [compile_nodes]. rewrite Hc.
    destruct (IH (before ++ [n]) (earlier ++ [c])) as (cs & Hcs & Hall).
    + apply Forall2_app; [assumption|]. constructor; [|constructor].
      exact (compile_node_inr earlier n c Hc).
    + intros middle n' after ->. rewrite <- app_assoc.
      apply (Hok (n :: middle) n' after). reflexivity.
    + exists cs. split; [assumption|]. rewrite <- app_assoc in Hall. exact Hall.
Qed.

Lemma compiled_from_ids ns cs :
  Forall2 compiled_from ns cs -> map node_id cs = map id ns.
Proof.
  induction 1 as [|n c ns cs (Hid & _) _ IH]; [reflexivity|].
  simpl. rewrite Hid, IH. reflexivity.
Qed.

(** ** C8 *)

(** C8, as stated, fails on the compiler of the specification: the
    pipeline [A, B'] binds only to a producer declared earlier, and the
    pipeline [C] has no binding at all, yet [compile] fails on both, with
    a missing output key and an unsupported execution property. *)
Lemma compile_fails_with_forward_declared_bindings :
  forward_declared [node_A; node_B_missing_key] /\
  compile (pipeline_of [node_A; node_B_missing_key]) = inl (MissingOutputKey "B" "A" "z") /\
  forward_declared [node_C_unsupported] /\
  compile (pipeline_of [node_C_unsupported]) = inl (UnsupportedExecProperty "C" "callback").
Proof.
  split; [|split; [reflexivity|split; [|reflexivity]]].
  - intros [|m [|m' before]] n after E key producer_id output_key Hin;
      injection E as E1 E2; subst.
    + destruct Hin.
    + destruct Hin as [[= <- <-]|[]].
      exists node_A. split; [left|]; reflexivity.
    + destruct before; discriminate.
  - intros [|m before] n after E key producer_id output_key Hin;
      injection E as E1 E2; subst.
    + destruct Hin.
    + destruct before; discriminate.
Qed.

(** C8 (amended): for every authored pipeline whose channel bindings
    reference only producer nodes declared earlier in the node list (so
    they are acyclic), in which moreover every bound output key is
    declared by its producer and every execution property is of a
    supported kind, [compile] succeeds and the compiled node list has the
    nodes of the authored list in the same order. *)
Theorem compile_preserves_order p :
  forward_declared (components p) ->
  (forall before n after,
     components p = before ++ n :: after -> output_keys_declared before n) ->
  (forall n, In n (components p) -> exec_properties_supported n) ->
  exists cp,
    compile p = inr cp /\
    map node_id (nodes cp) = map id (components p) /\
    Forall2 compiled_from (components p) (nodes cp).
Proof.
  intros Hfwd Hkeys Hprops. unfold compile.
  destruct (compile_nodes_succeeds (components p) [] []) as (cs & -> & Hall);
    [constructor | |].
  { intros before n after E. split; [exact (Hfwd before n after E)|].
    split; [exact (Hkeys before n after E)|].
    apply Hprops. rewrite E. apply in_or_app. right. left. reflexivity. }
  eexists. split; [reflexivity|]. cbn [nodes]. split; [|exact Hall].
  apply compiled_from_ids, Hall.
Qed.

Lemma compile_preserves_order_witness :
  exists cp,
    compile (pipeline_of [node_A; node_B]) = inr cp /\
    map node_id (nodes cp) = ["A"; "B"] /\
    Forall2 compiled_from [node_A; node_B] (nodes cp).
Proof.
  apply (compile_preserves_order (pipeline_of [node_A; node_B])).
  - intros [|m [|m' before]] n after E; injection E as E1 E2; subst.
    + intros key producer_id output_key [].
    + intros key producer_id output_key [[= <- <- <-]|[]].
      exists node_A. split; [left|]; reflexivity.
    + destruct before; discriminate.
  - intros [|m [|m' before]] n after E; injection E as E1 E2; subst.
    + intros key producer_id output_key m [].
    + intros key producer_id output_key m [[= <- <- <-]|[]] [<-|[]] _.
      exists "Examples". left. reflexivity.
    + destruct before; discriminate.
  - intros n [<-|[<-|[]]] name description.
    + intros [].
    + intros [[=]|[]].
Defined.

(** The scenario of the specification: [A -> B] compiles to the nodes
    [A, B] in that order, the input of [B] naming producer [A] and key
    ["x"]. *)
Example compile_A_B :
  exists cp,
    compile (pipeline_of [node_A; node_B]) = inr cp /\
    map node_id (nodes cp) = ["A"; "B"] /\
    map input_specs (nodes cp) = [[]; [mkInputSpec "examples" "Examples" (Some ("A", "x"))]] /\
    map upstream_nodes (nodes cp) = [[]; ["A"]].
Proof. eexists. split; [reflexivity|]. repeat split. Qed.

(** ** C9 *)

Lemma compile_node_unknown_producer earlier n key producer_id output_key :
  In (key, FromProducer producer_id output_key) (inputs n) ->
  (forall c, In c earlier -> node_id c <> producer_id) ->
  exists e, compile_node earlier n = inl e.
Proof.
  intros Hin Hne. unfold compile_node.
  destruct (compile_all_inl (compile_input earlier (id n)) (inputs n) _
              (UnknownProducer (id n) producer_id) Hin) as [e ->].
  - unfold compile_input. cbn [fst snd]. rewrite (find_node_none earlier producer_id Hne).
    reflexivity.
  - exists e. reflexivity.
Qed.

Lemma compile_nodes_unknown_producer before : forall earlier n after key producer_id output_key,
  In (key, FromProducer producer_id output_key) (inputs n) ->
  (forall m, In m before -> id m <> producer_id) ->
  (forall c, In c earlier -> node_id c <> producer_id) ->
  exists e, compile_nodes earlier (before ++ n :: after) = inl e.
Proof.
  induction before as [|m before IH]; intros earlier n after key producer_id output_key Hin Hb He.
  - cbn [app compile_nodes].
    destruct (compile_node_unknown_producer earlier n _ _ _ Hin He) as [e ->].
    exists e. reflexivity.
  - cbn [app compile_nodes].
    destruct (compile_node earlier m) as [e|c] eqn:Hc; [exists e; reflexivity|].
    apply (IH (earlier ++ [c]) n after key producer_id output_key Hin).
    + intros m' Hm'. apply Hb. right. assumption.
    + intros c' [Hc'|[<-|[]]]%in_app_or; [apply He, Hc'|].
      destruct (compile_node_inr earlier m c Hc) as (-> & _).
      apply Hb. left. reflexivity.
Qed.

(** C9: for every authored pipeline with a channel binding whose producer
    node id is not declared before the consumer (in particular, not
    declared at all), [compile] returns a [CompilationError] and no
    compiled pipeline. *)
Theorem compile_fails_on_undeclared_producer p :
  undeclared_producer (components p) ->
  (exists e, compile p = inl e) /\ (forall cp, compile p <> inr cp).
Proof.
  intros (before & n & after & key & producer_id & output_key & Hns & Hin & Hb).
  assert (exists e, compile p = inl e) as [e He].
  { unfold compile. rewrite Hns.
    destruct (compile_nodes_unknown_producer before [] n after key producer_id output_key
                Hin Hb) as [e ->]; [intros c []|].
    exists e. reflexivity. }
  split; [exists e; exact He|]. intros cp. rewrite He. discriminate.
Qed.

Lemma compile_fails_on_undeclared_producer_witness :
  (exists e, compile (pipeline_of [node_B; node_A]) = inl e) /\
  (forall cp, compile (pipeline_of [node_B; node_A]) <> inr cp).
Proof.
  apply (compile_fails_on_undeclared_producer (pipeline_of [node_B; node_A])).
  exists [], node_B, [node_A], "examples", "A", "x".
  split; [reflexivity|]. split; [left; reflexivity|]. intros m [].
Defined.

End CompilerProps.

(* ===================================================================== *)
(** * Further properties of placeholders *)
(* ===================================================================== *)

Module PlaceholderExtras.
Import Placeholder PlaceholderProps.

Section encoding.
Context {index_field : IndexField}.

(** ** Attaching one operator *)

(** After one more operator is attached to [p], [p] encodes to what that
    operator makes of the previous encoding. *)
Lemma enc_append_operator h p n e op :
  enc n h p = Some e ->
  exists k, forall m e',
    k <= m ->
    operator_result (enc m (append_operator op p h)) op e = Some e' ->
    enc (S m) (append_operator op p h) p = Some e'.
Proof.
  intros He.
  destruct (enc_replace_operators (fun ops => ops ++ [op]) h p n e He)
    as (k & ph & Hp & Hk & Hframe & Hnew).
  fold (append_operator op p h) in Hframe, Hnew.
  exists k. intros m e' Hm Hop. rewrite Hnew, operators_result_app.
  rewrite (operators_result_mono (enc k (append_operator op p h)) (enc m (append_operator op p h))
             (_operators ph) (fun r y => enc_mono _ r y k m Hm) _ e (Hframe _ _ _ Hk)).
  cbn [operators_result]. rewrite Hop. reflexivity.
Qed.

(** The same for an operator that has no placeholder operand, in terms of
    [encode]. *)
Lemma encode_append_wrapping h p n e op e' :
  encode n p h = (Some e, h) ->
  (forall rec, operator_result rec op e = Some e') ->
  exists m, encode m p (append_operator op p h) = (Some e', append_operator op p h).
Proof.
  intros He Hop. rewrite encode_reads in He. injection He as He.
  destruct (enc_append_operator h p n e op He) as [k Hk].
  exists (S k). rewrite encode_reads. f_equal. apply Hk; [lia | apply Hop].
Qed.

(** With an index that the field does not hold attached, no call of
    [encode] returns. *)
Lemma enc_index_out_of_range h p i ph :
  h !! p = Some ph ->
  In (_IndexOperator i) (_operators ph) ->
  index_in_range i = false ->
  forall n, enc n h p = None.
Proof.
  intros Hp Hin Hi [|n]; [reflexivity|]. cbn [enc]. rewrite Hp.
  generalize (placeholder (_type ph) (_key ph)).
  induction (_operators ph) as [|op ops IHops]; intros e; [destruct Hin|].
  cbn [operators_result]. destruct Hin as [->|Hin].
  - cbn [operator_result]. rewrite Hi. reflexivity.
  - destruct (operator_result (enc n h) op e); [apply IHops, Hin | reflexivity].
Qed.

(** X1: let [p] encode to [e].  When [i] is an index the index field
    holds, after [p[i]] the placeholder encodes to the [Index] operator
    with index [i] around [e]; when it is not, after [p[i]] a call of
    [encode] on [p] returns no expression, whatever the recursion bound,
    and leaves the store as it is. *)
Theorem getitem_encode h p n e i :
  encode n p h = (Some e, h) ->
  (index_in_range i = true ->
   exists m, encode m p (__getitem__ p i h) = (Some (index_op e i), __getitem__ p i h)) /\
  (index_in_range i = false ->
   forall m, encode m p (__getitem__ p i h) = (None, __getitem__ p i h)).
Proof.
  intros He. split; intros Hi.
  - apply (encode_append_wrapping h p n e (_IndexOperator i) _ He).
    intros rec. cbn [operator_result]. rewrite Hi. reflexivity.
  - intros m. rewrite encode_reads in *. injection He as He. f_equal.
    destruct n as [|n]; [discriminate|]. cbn [enc] in He.
    destruct (h !! p) as [ph|] eqn:Hp; [|discriminate].
    apply (enc_index_out_of_range _ p i
             (set_operators ((fun ops => ops ++ [_IndexOperator i]) (_operators ph)) ph)).
    + exact (alter_operators_lookup (fun ops => ops ++ [_IndexOperator i]) p h ph Hp).
    + apply in_or_app. right. left. reflexivity.
    + exact Hi.
Qed.

(** X2: if an artifact placeholder [p] encodes to [e], then after [p.uri]
    it encodes to [ArtifactUri] around [e] with no split, after
    [p.split_uri(s)] to [ArtifactUri] around [e] with split [s], and after
    [p.value] to [ArtifactValue] around [e]. *)
Theorem uri_value_encode h p n e :
  encode n p h = (Some e, h) ->
  (exists m, encode m p (uri p h) = (Some (artifact_uri_op e ""), uri p h)) /\
  (forall s, exists m,
     encode m p (split_uri p s h) = (Some (artifact_uri_op e s), split_uri p s h)) /\
  (exists m, encode m p (value_ p h) = (Some (artifact_value_op e), value_ p h)).
Proof.
  intros He. split; [|split].
  - apply (encode_append_wrapping h p n e (_ArtifactUriOperator "") _ He).
    intros rec. reflexivity.
  - intros s. apply (encode_append_wrapping h p n e (_ArtifactUriOperator s) _ He).
    intros rec. reflexivity.
  - apply (encode_append_wrapping h p n e _ArtifactValueOperator _ He).
    intros rec. reflexivity.
Qed.


(** ** Any number of concatenations *)

Lemma operator_result_concat rec o e eo :
  operand_result rec o = Some eo ->
  operator_result rec (_ConcatOperator o) e = Some (concat_op (concat_operands e ++ [eo])).
Proof. destruct o as [s|r]; simpl; [intros [= <-]|intros ->]; reflexivity. Qed.

Lemma operators_result_concats rec os es :
  Forall2 (fun o eo => operand_result rec o = Some eo) os es ->
  forall xs,
    operators_result rec (map _ConcatOperator os) (concat_op xs) = Some (concat_op (xs ++ es)).
Proof.
  induction 1 as [|o eo os es Ho _ IH]; intros xs; cbn [map operators_result].
  - rewrite app_nil_r. reflexivity.
  - rewrite (operator_result_concat rec o (concat_op xs) eo Ho). cbn [concat_operands].
    rewrite IH, <- app_assoc. reflexivity.
Qed.

Lemma operators_result_concats_onto rec os es e :
  os <> [] ->
  Forall2 (fun o eo => operand_result rec o = Some eo) os es ->
  operators_result rec (map _ConcatOperator os) e = Some (concat_op (concat_operands e ++ es)).
Proof.
  intros Hne Hall. destruct Hall as [|o eo os' es' Ho Hrest]; [destruct Hne; reflexivity|].
  cbn [map operators_result].
  rewrite (operator_result_concat rec o e eo Ho).
  rewrite (operators_result_concats rec os' es' Hrest), <- app_assoc. reflexivity.
Qed.

Lemma operands_common_fuel h os es :
  Forall2 (fun o eo => exists k, operand_encode k o h = (Some eo, h)) os es ->
  exists K, forall m, K <= m ->
    Forall2 (fun o eo => operand_result (enc m h) o = Some eo) os es.
Proof.
  induction 1 as [|o eo os es [k Hk] _ [K IH]].
  - exists 0. constructor.
  - exists (Nat.max k K). intros m Hm. constructor; [|apply IH; lia].
    destruct o as [s|r]; simpl in *.
    + injection Hk as <-. reflexivity.
    + rewrite encode_reads in Hk. injection Hk as Hk.
      apply (enc_mono h r eo k m); [lia | exact Hk].
Qed.

Lemma add_all_alter p os : forall h : heap,
  foldl (fun h o => __add__ p o h) h os
  = alter (fun x => set_operators (_operators x ++ map _ConcatOperator os) x) p h.
Proof.
  induction os as [|o os IH]; intros h; cbn [foldl map].
  - symmetry. apply list_alter_id. intros [c ops t k]. unfold set_operators. simpl.
    rewrite app_nil_r. reflexivity.
  - rewrite IH. unfold __add__, append_operator. rewrite list_alter_alter_eq.
    apply list_alter_ext; [|reflexivity..]. intros x _. unfold set_operators, compose. simpl.
    rewrite <- app_assoc. reflexivity.
Qed.

(** X3: if [p] encodes to [e] and, once they are all attached, the
    operands [o1 .. on] (n >= 1) encode to [e1 .. en], then
    [p + o1 + ... + on] encodes to one [Concat] whose operands are [e]
    (its own operands when it is a [Concat]) followed by [e1 .. en], in
    attachment order. *)
Theorem add_all_encode h p n e os es :
  let h' := foldl (fun h o => __add__ p o h) h os in
  encode n p h = (Some e, h) ->
  os <> [] ->
  Forall2 (fun o eo => exists k, operand_encode k o h' = (Some eo, h')) os es ->
  exists m, encode m p h' = (Some (concat_op (concat_operands e ++ es)), h').
Proof.
  intros h' He Hne Hos. rewrite encode_reads in He. injection He as He.
  assert (h' = alter (fun x => set_operators
            ((fun ops => ops ++ map _ConcatOperator os) (_operators x)) x) p h) as Hh'
    by apply add_all_alter.
  destruct (enc_replace_operators (fun ops => ops ++ map _ConcatOperator os) h p n e He)
    as (k & ph & Hp & Hk & Hframe & Hnew).
  rewrite <- Hh' in Hframe, Hnew.
  destruct (operands_common_fuel h' os es Hos) as [K HK].
  set (m := Nat.max k K). exists (S m). rewrite encode_reads. f_equal.
  rewrite Hnew, operators_result_app.
  rewrite (operators_result_mono (enc k h') (enc m h') (_operators ph)
             (fun r y => enc_mono h' r y k m ltac:(lia)) _ e (Hframe _ _ _ Hk)).
  apply operators_result_concats_onto; [exact Hne|]. apply HK. lia.
Qed.



(** ** Operands are kept by reference *)

Lemma operators_result_no_placeholder rec1 rec2 ops e :
  Forall no_placeholder_operand ops ->
  operators_result rec1 ops e = operators_result rec2 ops e.
Proof.
  intros Hall. revert e. induction Hall as [|op ops Hop _ IH]; intros e; [reflexivity|].
  cbn [operators_result].
  assert (operator_result rec1 op e = operator_result rec2 op e) as ->.
  { destruct op as [ | | | [s|r] | ]; try reflexivity. destruct (Hop r). reflexivity. }
  destruct (operator_result rec2 op e); [apply IH | reflexivity].
Qed.

(** X4: [p + q] keeps a reference to [q], not its expression.  Let the
    last operator of [p] be the concatenation of another placeholder [q],
    with no placeholder operand before it, and let [p] encode to [ep] and
    [q] to [eq].  Then [ep] is a [Concat] whose last operand is [eq]; and
    after an operator without placeholder operand is attached to [q], which
    makes [q] encode to [eq'], the same [p], untouched, encodes to that
    [Concat] with [eq'] in the place of [eq]. *)
Theorem operand_by_reference (h : heap) p q ph ops kp ep k eq op eq' :
  p <> q ->
  h !! p = Some ph ->
  _operators ph = ops ++ [_ConcatOperator (Ref q)] ->
  Forall no_placeholder_operand ops ->
  encode kp p h = (Some ep, h) ->
  encode k q h = (Some eq, h) ->
  (forall rec, operator_result rec op eq = Some eq') ->
  let h' := append_operator op q h in
  exists e0 m,
    h' !! p = Some ph /\
    ep = concat_op (concat_operands e0 ++ [eq]) /\
    encode m p h' = (Some (concat_op (concat_operands e0 ++ [eq'])), h').
Proof.
  intros Hpq Hp Hops Hno Hep Hq Hop h'.
  rewrite encode_reads in Hq, Hep. injection Hq as Hq. injection Hep as Hep.
  destruct kp as [|kp]; [discriminate|]. cbn [enc] in Hep.
  rewrite Hp, Hops, operators_result_app in Hep.
  destruct (operators_result (enc kp h) ops (placeholder (_type ph) (_key ph)))
    as [e0|] eqn:He0; [|discriminate].
  cbn [operators_result operator_result] in Hep.
  destruct (enc kp h q) as [eq0|] eqn:Hq0; [|discriminate].
  assert (eq0 = eq) as ->.
  { pose proof (enc_mono h q eq0 kp (Nat.max kp k) ltac:(lia) Hq0) as H1.
    pose proof (enc_mono h q eq k (Nat.max kp k) ltac:(lia) Hq) as H2. congruence. }
  injection Hep as <-.
  destruct (enc_append_operator h q k eq op Hq) as [k' Hk']. fold h' in Hk'.
  set (m := S k').
  assert (enc m h' q = Some eq') as Hq2 by (apply Hk'; [lia | apply Hop]).
  assert (h' !! p = Some ph) as Hp'.
  { unfold h', append_operator. rewrite list_lookup_alter_ne by congruence. exact Hp. }
  exists e0, (S m). split; [exact Hp'|]. split; [reflexivity|].
  rewrite encode_reads. cbn [enc]. rewrite Hp', Hops, operators_result_app.
  rewrite (operators_result_no_placeholder (enc m h') (enc kp h) ops _ Hno), He0.
  cbn [operators_result operator_result]. rewrite Hq2. reflexivity.
Qed.

(** ** When [encode] returns *)

Lemma operators_result_index rec ops i : forall e e',
  In (_IndexOperator i) ops ->
  operators_result rec ops e = Some e' -> index_in_range i = true.
Proof.
  induction ops as [|op ops IH]; intros e e' Hin He; [destruct Hin|].
  cbn [operators_result] in He.
  destruct (operator_result rec op e) as [e1|] eqn:E1; [|discriminate].
  destruct Hin as [->|Hin]; [|exact (IH e1 e' Hin He)].
  cbn [operator_result] in E1. destruct (index_in_range i); [reflexivity|discriminate].
Qed.

Lemma operators_result_operand rec ops q : forall e e',
  In (_ConcatOperator (Ref q)) ops ->
  operators_result rec ops e = Some e' -> is_Some (rec q).
Proof.
  induction ops as [|op ops IH]; intros e e' Hin He; [destruct Hin|].
  cbn [operators_result] in He.
  destruct (operator_result rec op e) as [e1|] eqn:E1; [|discriminate].
  destruct Hin as [->|Hin]; [|exact (IH e1 e' Hin He)].
  cbn [operator_result] in E1. destruct (rec q) as [o|]; [eexists; reflexivity|discriminate].
Qed.

Lemma enc_grounded h : forall n r e, enc n h r = Some e -> grounded h r.
Proof.
  induction n as [|n IH]; intros r e He; [discriminate|].
  cbn [enc] in He. destruct (h !! r) as [p|] eqn:Hp; [|discriminate].
  apply (grounded_intro h r p Hp).
  - intros i Hi. exact (operators_result_index _ _ i _ _ Hi He).
  - intros q Hq. destruct (operators_result_operand _ _ q _ _ Hq He) as [eq Heq].
    exact (IH q eq Heq).
Qed.

(** X5: [encode()] returns an expression on a handle exactly when the
    handle is grounded: the handle exists, the indices attached to it are
    indices the index field holds, and the same is true of every
    placeholder concatenated onto it, which never leads back to a
    placeholder on the way. *)
Theorem encode_returns_iff_grounded h r :
  (exists n e, encode n r h = (Some e, h)) <-> grounded h r.
Proof.
  split.
  - intros (n & e & He). rewrite encode_reads in He. injection He as He.
    exact (enc_grounded h n r e He).
  - intros Hg. destruct (grounded_returns h r Hg) as (n & e & He).
    exists n, e. rewrite encode_reads, (He n (le_n n)). reflexivity.
Qed.


(** ** What the builder keeps true of every store *)

Lemma valid_operand_length (h h' : heap) o :
  List.length h <= List.length h' -> valid_operand h o -> valid_operand h' o.
Proof. destruct o as [s|r]; simpl; [trivial | lia]. Qed.

Lemma operator_operand_valid_length (h h' : heap) op :
  List.length h <= List.length h' -> operator_operand_valid h op -> operator_operand_valid h' op.
Proof. destruct op; simpl; trivial. apply valid_operand_length. Qed.

Lemma well_formed_new c t key (h : heap) :
  c = class_of_type t -> well_formed h -> well_formed (snd (new_placeholder c t key h)).
Proof.
  intros Hc Hwf r p Hr. unfold new_placeholder in Hr. cbn [snd] in Hr.
  apply lookup_app_Some in Hr as [Hr|[_ Hr]].
  - destruct (Hwf r p Hr) as [Hcls Hops]. split; [exact Hcls|].
    intros op Hop. destruct (Hops op Hop) as [Ha Hv]. split; [exact Ha|].
    apply (operator_operand_valid_length h); [|exact Hv].
    unfold new_placeholder. cbn [snd]. rewrite length_app. lia.
  - apply list_lookup_singleton_Some in Hr as [_ <-]. split; [exact Hc|]. intros op [].
Qed.

Lemma well_formed_alter f self (h : heap) :
  well_formed h ->
  (forall p op,
     h !! self = Some p -> In op (f (_operators p)) ->
     In op (_operators p) \/
     (operator_allowed (cls p) op = true /\ operator_operand_valid h op)) ->
  well_formed (alter (fun x => set_operators (f (_operators x)) x) self h).
Proof.
  intros Hwf Hf r p' Hr.
  assert (forall op, operator_operand_valid h op ->
            operator_operand_valid
              (alter (fun x => set_operators (f (_operators x)) x) self h) op) as Hlen.
  { intros op. apply operator_operand_valid_length. rewrite length_alter. lia. }
  destruct (decide (r = self)) as [->|Hne].
  - rewrite list_lookup_alter_eq in Hr.
    destruct (h !! self) as [p|] eqn:Hp; [|discriminate]. injection Hr as <-.
    destruct (Hwf self p Hp) as [Hcls Hops]. split; [exact Hcls|].
    intros op Hop. cbn [set_operators _operators cls] in *.
    destruct (Hf p op eq_refl Hop) as [Hold|[Ha Hv]].
    + destruct (Hops op Hold) as [Ha Hv]. split; [exact Ha | apply Hlen, Hv].
    + split; [exact Ha | apply Hlen, Hv].
  - rewrite list_lookup_alter_ne in Hr by congruence.
    destruct (Hwf r p' Hr) as [Hcls Hops]. split; [exact Hcls|].
    intros op Hop. destruct (Hops op Hop) as [Ha Hv]. split; [exact Ha | apply Hlen, Hv].
Qed.

Lemma well_formed_append op self (h : heap) :
  well_formed h ->
  (forall p, h !! self = Some p ->
     operator_allowed (cls p) op = true /\ operator_operand_valid h op) ->
  well_formed (append_operator op self h).
Proof.
  intros Hwf Hop. apply (well_formed_alter (fun ops => ops ++ [op]) self h Hwf).
  intros p op' Hp [Hold|[<-|[]]]%in_app_or; [left; exact Hold | right; exact (Hop p Hp)].
Qed.

(** X6: every store the constructors and builder methods can reach is
    well formed: the class of each placeholder is the one of its type, its
    operators are among those the methods of its class attach (no
    [ProtoFieldPath] on an artifact placeholder, no [ArtifactUri] or
    [ArtifactValue] on an exec-property placeholder), and every
    concatenation operand that is a placeholder exists. *)
Theorem built_well_formed h : built h -> well_formed h.
Proof.
  induction 1 as [ | key h _ IH | key h _ IH | key h _ IH
                 | self i h _ IH Hself | self other h _ IH Hself Hother
                 | self h _ IH Hcls | self split h _ IH Hcls | self h _ IH Hcls
                 | self field_name h _ IH Hcls ].
  - intros r p Hr. discriminate.
  - apply well_formed_new; [reflexivity | exact IH].
  - apply well_formed_new; [reflexivity | exact IH].
  - apply well_formed_new; [reflexivity | exact IH].
  - apply well_formed_append; [exact IH|]. intros p _. split; [destruct (cls p)|]; reflexivity.
  - apply well_formed_append; [exact IH|]. intros p _.
    split; [destruct (cls p); reflexivity | exact Hother].
  - apply well_formed_append; [exact IH|]. intros p Hp.
    destruct Hcls as (p' & Hp' & Hc). rewrite Hp in Hp'. injection Hp' as <-.
    rewrite Hc. split; reflexivity.
  - apply well_formed_append; [exact IH|]. intros p Hp.
    destruct Hcls as (p' & Hp' & Hc). rewrite Hp in Hp'. injection Hp' as <-.
    rewrite Hc. split; reflexivity.
  - apply well_formed_append; [exact IH|]. intros p Hp.
    destruct Hcls as (p' & Hp' & Hc). rewrite Hp in Hp'. injection Hp' as <-.
    rewrite Hc. split; reflexivity.
  - apply (well_formed_alter (getattr_operators field_name) self h IH).
    intros p op Hp Hop.
    destruct Hcls as (p' & Hp' & Hc). rewrite Hp in Hp'. injection Hp' as <-.
    assert (forall l x, In op (l ++ [_ProtoOperator x]) ->
              In op l \/ (operator_allowed (cls p) op = true /\ operator_operand_valid h op))
      as Hsnoc.
    { intros l x [Hl|[<-|[]]]%in_app_or; [left; exact Hl|right]. rewrite Hc. split; reflexivity. }
    unfold getattr_operators in Hop.
    destruct (last (_operators p)) as [[ | | | | path]|] eqn:Hlast;
      try (destruct (Hsnoc _ _ Hop) as [Hl|Hr]; [left; exact Hl | right; exact Hr]).
    apply last_Some in Hlast as [l Hl]. rewrite Hl, removelast_last in Hop. rewrite Hl.
    destruct (Hsnoc _ _ Hop) as [Hin|Hr]; [left; apply in_or_app; left; exact Hin | right; exact Hr].
Qed.


(** ** New placeholders *)

Lemma enc_extend (h : heap) x : forall n r e, enc n h r = Some e -> enc n (h ++ [x]) r = Some e.
Proof.
  induction n as [|n IH]; intros r e He; [discriminate|].
  cbn [enc] in *. destruct (h !! r) as [p|] eqn:Hp; [|discriminate].
  rewrite (lookup_app_l_Some h [x] r p Hp).
  exact (operators_result_mono _ _ _ IH _ _ He).
Qed.

(** X7: [input(key)], [output(key)] and [exec_property(key)] each return
    a handle that did not exist before and encodes to the bare leaf of
    kind [INPUT_ARTIFACT], [OUTPUT_ARTIFACT], [EXEC_PROPERTY] with that
    key; every handle that encoded before encodes to the same expression
    afterwards. *)
Theorem constructors_create_leaves :
  creates_leaf input INPUT_ARTIFACT /\
  creates_leaf output OUTPUT_ARTIFACT /\
  creates_leaf exec_property EXEC_PROPERTY.
Proof.
  assert (forall c t, creates_leaf (new_placeholder c t) t) as Hnew.
  { intros c t key h. unfold new_placeholder. cbn [fst snd]. split; [|split].
    - apply lookup_ge_None. lia.
    - rewrite encode_reads. cbn [enc]. rewrite lookup_app_r by lia.
      rewrite Nat.sub_diag. reflexivity.
    - intros r n e He. rewrite encode_reads in *. injection He as He.
      rewrite (enc_extend h _ n r e He). reflexivity. }
  split; [exact (Hnew ArtifactPlaceholder INPUT_ARTIFACT)|].
  split; [exact (Hnew ArtifactPlaceholder OUTPUT_ARTIFACT)|].
  exact (Hnew ExecPropertyPlaceholder EXEC_PROPERTY).
Qed.

(** ** The leaf of an encoding *)

Lemma operator_result_leaf rec op e e' :
  e <> concat_op [] ->
  operator_result rec op e = Some e' ->
  leaf_of e' = leaf_of e /\ e' <> concat_op [].
Proof.
  intros Hne Hop.
  assert (forall o, leaf_of (concat_op (concat_operands e ++ [o])) = leaf_of e /\
                    concat_op (concat_operands e ++ [o]) <> concat_op []) as Hconcat.
  { intros o. destruct e as [ | | | | |[|x xs]| ]; try (split; [reflexivity|discriminate]).
    destruct Hne. reflexivity. }
  destruct op as [ | | i | [s|r] | ]; cbn [operator_result] in Hop.
  - injection Hop as <-. split; [reflexivity|discriminate].
  - injection Hop as <-. split; [reflexivity|discriminate].
  - destruct (index_in_range i); [|discriminate].
    injection Hop as <-. split; [reflexivity|discriminate].
  - injection Hop as <-. apply Hconcat.
  - destruct (rec r) as [o|]; [|discriminate]. injection Hop as <-. apply Hconcat.
  - injection Hop as <-. split; [reflexivity|discriminate].
Qed.

Lemma operators_result_leaf rec ops : forall e e',
  e <> concat_op [] ->
  operators_result rec ops e = Some e' ->
  leaf_of e' = leaf_of e.
Proof.
  induction ops as [|op ops IH]; intros e e' Hne He; cbn [operators_result] in He.
  - injection He as <-. reflexivity.
  - destruct (operator_result rec op e) as [e1|] eqn:E1; [|discriminate].
    destruct (operator_result_leaf rec op e e1 Hne E1) as [Hleaf Hne1].
    rewrite (IH e1 e' Hne1 He). exact Hleaf.
Qed.

(** X8: whatever operators are attached, the innermost leaf of the
    expression [encode()] returns for a handle is the placeholder leaf
    with the type and key the handle was created with. *)
Theorem encode_leaf (h : heap) r n e :
  encode n r h = (Some e, h) ->
  exists p, h !! r = Some p /\ leaf_of e = placeholder (_type p) (_key p).
Proof.
  rewrite encode_reads. intros [= He]. destruct n as [|n]; [discriminate|].
  cbn [enc] in He. destruct (h !! r) as [p|]; [|discriminate].
  exists p. split; [reflexivity|].
  refine (operators_result_leaf _ _ (placeholder (_type p) (_key p)) e _ He). discriminate.
Qed.



(** ** Self-concatenation *)

Lemma self_concatenated_alter f p q (h : heap) :
  (forall ops, In (_ConcatOperator (Ref p)) ops -> In (_ConcatOperator (Ref p)) (f ops)) ->
  self_concatenated h p ->
  self_concatenated (alter (fun x => set_operators (f (_operators x)) x) q h) p.
Proof.
  intros Hf (ph & Hp & Hin). destruct (decide (p = q)) as [<-|Hne].
  - exists (set_operators (f (_operators ph)) ph). split.
    + rewrite list_lookup_alter_eq, Hp. reflexivity.
    + apply Hf, Hin.
  - exists ph. split; [|exact Hin]. rewrite list_lookup_alter_ne by congruence. exact Hp.
Qed.

Lemma enc_self_concatenated h p : self_concatenated h p -> forall n, enc n h p = None.
Proof.
  intros (ph & Hp & Hin). induction n as [|n IH]; [reflexivity|].
  cbn [enc]. rewrite Hp. generalize (placeholder (_type ph) (_key ph)).
  induction (_operators ph) as [|op ops IHops]; intros e; [destruct Hin|].
  cbn [operators_result]. destruct Hin as [->|Hin].
  - cbn [operator_result]. rewrite IH. reflexivity.
  - destruct (operator_result (enc n h) op e); [apply IHops, Hin | reflexivity].
Qed.

(** X18: once a placeholder has been concatenated onto itself ([p + p]),
    [p.encode()] returns no expression whatever the recursion bound, and
    no later use of the builder repairs it: [p] is still concatenated onto
    itself after any operator is attached to any placeholder, after any
    attribute access on any exec-property placeholder, and after any new
    placeholder is created. *)
Theorem self_concatenation_is_permanent (h : heap) p :
  self_concatenated h p ->
  (forall n, fst (encode n p h) = None) /\
  (forall op q, self_concatenated (append_operator op q h) p) /\
  (forall field_name q, self_concatenated (__getattr__ q field_name h) p) /\
  (forall c t key, self_concatenated (snd (new_placeholder c t key h)) p).
Proof.
  intros Hself. split; [|split; [|split]].
  - intros n. rewrite encode_reads. exact (enc_self_concatenated h p Hself n).
  - intros op q. apply (self_concatenated_alter (fun ops => ops ++ [op])); [|exact Hself].
    intros ops Hin. apply in_or_app. left. exact Hin.
  - intros field_name q.
    apply (self_concatenated_alter (getattr_operators field_name)); [|exact Hself].
    intros ops Hin. unfold getattr_operators.
    destruct (last ops) as [[ | | | | path]|] eqn:Hlast;
      try (apply in_or_app; left; exact Hin).
    apply last_Some in Hlast as [l ->]. rewrite removelast_last.
    apply in_app_or in Hin as [Hin|[Hin|[]]]; [|discriminate].
    apply in_or_app. left. exact Hin.
  - intros c t key. destruct Hself as (ph & Hp & Hin). exists ph. split; [|exact Hin].
    unfold new_placeholder. cbn [snd]. apply lookup_app_l_Some, Hp.
Qed.


End encoding.

(** ** The examples, with a signed 32-bit index field *)

#[local] Existing Instance int32_index.

Lemma getitem_encode_witness :
  (exists m, encode m 0 (__getitem__ 0 1 examples_0)
     = (Some (index_op (index_op (placeholder INPUT_ARTIFACT "examples") 0) 1),
        __getitem__ 0 1 examples_0)) /\
  (forall m, encode m 0 (__getitem__ 0 (2 ^ 31) examples_0)
             = (None, __getitem__ 0 (2 ^ 31) examples_0)).
Proof.
  split.
  - exact (proj1 (getitem_encode examples_0 0 1
                    (index_op (placeholder INPUT_ARTIFACT "examples") 0) 1 eq_refl) eq_refl).
  - exact (proj2 (getitem_encode examples_0 0 1
                    (index_op (placeholder INPUT_ARTIFACT "examples") 0) (2 ^ 31) eq_refl)
             eq_refl).
Defined.

Lemma uri_value_encode_witness :
  exists m, encode m 0 (split_uri 0 "train" examples_0)
    = (Some (artifact_uri_op (index_op (placeholder INPUT_ARTIFACT "examples") 0) "train"),
       split_uri 0 "train" examples_0).
Proof.
  exact (proj1 (proj2 (uri_value_encode examples_0 0 1
                         (index_op (placeholder INPUT_ARTIFACT "examples") 0) eq_refl))
           "train").
Defined.

Lemma add_all_encode_witness :
  exists m, encode m 0 model_uri_version
    = (Some (concat_op [artifact_uri_op (placeholder INPUT_ARTIFACT "model") "";
                        value "/model/"; placeholder EXEC_PROPERTY "version"]),
       model_uri_version).
Proof.
  refine (add_all_encode
            (snd (exec_property "version" (uri 0 (snd (input "model" [])))))
            0 1 (artifact_uri_op (placeholder INPUT_ARTIFACT "model") "")
            [Str "/model/"; Ref 1]
            [value "/model/"; placeholder EXEC_PROPERTY "version"]
            eq_refl _ _).
  - discriminate.
  - constructor; [exists 0; reflexivity|]. constructor; [exists 1; reflexivity|]. constructor.
Defined.

Lemma operand_by_reference_witness :
  exists e0 m,
    append_operator (_IndexOperator 0) 0 out_plus_model !! 1
    = Some (mkPlaceholder ArtifactPlaceholder [_ConcatOperator (Ref 0)] OUTPUT_ARTIFACT "out") /\
    concat_op [placeholder OUTPUT_ARTIFACT "out"; placeholder INPUT_ARTIFACT "model"]
    = concat_op (concat_operands e0 ++ [placeholder INPUT_ARTIFACT "model"]) /\
    encode m 1 (append_operator (_IndexOperator 0) 0 out_plus_model)
    = (Some (concat_op (concat_operands e0
                        ++ [index_op (placeholder INPUT_ARTIFACT "model") 0])),
       append_operator (_IndexOperator 0) 0 out_plus_model).
Proof.
  refine (operand_by_reference out_plus_model 1 0 _ [] 2 _ 1 _ (_IndexOperator 0) _
            _ eq_refl eq_refl _ eq_refl eq_refl _).
  - discriminate.
  - constructor.
  - intros rec. reflexivity.
Defined.

Lemma built_well_formed_witness :
  exists p,
    model_uri_version !! 0 = Some p /\
    cls p = class_of_type (_type p) /\
    forall op, In op (_operators p) ->
      operator_allowed (cls p) op = true /\ operator_operand_valid model_uri_version op.
Proof.
  assert (built model_uri_version) as Hb.
  { apply (built_add 0 (Ref 1)
             (snd (exec_property "version"
                     (__add__ 0 (Str "/model/") (uri 0 (snd (input "model" []))))))).
    - apply (built_exec_property "version").
      apply (built_add 0 (Str "/model/")); [|simpl; lia|exact I].
      apply (built_uri 0); [apply (built_input "model"), built_empty|].
      eexists. split; reflexivity.
    - simpl. lia.
    - simpl. lia. }
  exists (mkPlaceholder ArtifactPlaceholder
            [_ArtifactUriOperator ""; _ConcatOperator (Str "/model/"); _ConcatOperator (Ref 1)]
            INPUT_ARTIFACT "model").
  split; [reflexivity|].
  exact (built_well_formed model_uri_version Hb 0 _ eq_refl).
Defined.

Lemma encode_leaf_witness :
  exists p, model_uri_version !! 0 = Some p /\
    leaf_of (concat_op [artifact_uri_op (placeholder INPUT_ARTIFACT "model") "";
                        value "/model/"; placeholder EXEC_PROPERTY "version"])
    = placeholder (_type p) (_key p).
Proof. exact (encode_leaf model_uri_version 0 2 _ eq_refl). Defined.

Lemma self_concatenation_is_permanent_witness :
  (forall n, fst (encode n 0 self_concat) = None) /\
  (forall op q, self_concatenated (append_operator op q self_concat) 0) /\
  (forall field_name q, self_concatenated (__getattr__ q field_name self_concat) 0) /\
  (forall c t key, self_concatenated (snd (new_placeholder c t key self_concat)) 0).
Proof.
  apply (self_concatenation_is_permanent self_concat 0).
  eexists. split; [reflexivity|]. left. reflexivity.
Defined.

End PlaceholderExtras.

(* ===================================================================== *)
(** * Further properties of output resolution *)
(* ===================================================================== *)

Module OutputsUtilsExtras.
Import OutputsUtils OutputsUtilsProps.

(** ** More on strings and paths *)

(** Two strings that agree are cut alike at their first colon. *)
Lemma split_first_colon a : forall a' r r',
  no_colon a = true -> no_colon a' = true ->
  a +:+ ":" +:+ r = a' +:+ ":" +:+ r' -> a = a' /\ r = r'.
Proof.
  induction a as [|c a IH]; intros [|c' a'] r r' Ha Ha' E.
  - rewrite !append_empty_l in E. injection E as E. split; [reflexivity | exact E].
  - rewrite append_empty_l, append_cons in E. injection E as Ec _.
    simpl in Ha'. rewrite <- Ec in Ha'. discriminate.
  - rewrite append_empty_l, append_cons in E. injection E as Ec _.
    simpl in Ha. rewrite Ec in Ha. discriminate.
  - rewrite !append_cons in E. injection E as -> E. simpl in Ha, Ha'.
    apply andb_prop in Ha as [_ Ha]. apply andb_prop in Ha' as [_ Ha'].
    destruct (IH a' r r' Ha Ha' E) as [-> ->]. split; reflexivity.
Qed.

(** Two paths that agree are cut alike at their last separator. *)
Lemma split_last_sep x x' t t' :
  no_sep t = true -> no_sep t' = true ->
  x +:+ "/" +:+ t = x' +:+ "/" +:+ t' -> x = x' /\ t = t'.
Proof.
  intros Ht Ht' E.
  assert (x +:+ "/" = x' +:+ "/") as Ex.
  { rewrite <- (upto_last_sep_append x t Ht), <- (upto_last_sep_append x' t' Ht'), E.
    reflexivity. }
  apply append_inv_r in Ex. subst x'. split; [reflexivity|].
  apply String.app_inj in E. injection E as E. exact E.
Qed.

Lemma endswith_sep_has_sep x t : endswith_sep x = true -> no_sep (x +:+ t) = false.
Proof.
  induction x as [|c x IH]; [discriminate|]. intros Hend.
  rewrite append_cons. cbn [no_sep]. destruct x as [|c' x].
  - simpl in Hend. rewrite Hend. reflexivity.
  - rewrite IH by exact Hend. apply andb_false_r.
Qed.

Lemma basename_append x t :
  x = "" \/ endswith_sep x = true -> no_sep t = true -> basename (x +:+ t) = t.
Proof.
  intros Hx Ht. induction x as [|c x IH].
  - rewrite append_empty_l. destruct t as [|c t]; [reflexivity|].
    cbn [basename no_sep] in *. apply andb_prop in Ht as [Hc Ht]. rewrite Ht.
    destruct (is_sep c); [discriminate | reflexivity].
  - destruct Hx as [Hx|Hx]; [discriminate|]. rewrite append_cons. cbn [basename].
    destruct x as [|c' x].
    + rewrite append_empty_l, Ht. simpl in Hx. rewrite Hx. reflexivity.
    + rewrite (endswith_sep_has_sep (String c' x) t Hx). apply IH. right. exact Hx.
Qed.

Lemma join_prefix_shape path :
  join_prefix path = "" \/ endswith_sep (join_prefix path) = true.
Proof.
  unfold join_prefix. destruct (String.eqb_spec path "") as [->|Hne]; [left; reflexivity|].
  cbn [orb]. destruct (endswith_sep path) eqn:E; [right; exact E|].
  right. rewrite endswith_sep_append by discriminate. reflexivity.
Qed.

(** The last component of a joined path is the component joined on. *)
Lemma basename_join_step path t : no_sep t = true -> basename (join_step path t) = t.
Proof.
  intros Ht. rewrite join_step_relative by (apply no_sep_startswith, Ht).
  apply basename_append; [apply join_prefix_shape | exact Ht].
Qed.

Lemma starts_decimal_str i : starts_decimal (str i) = true.
Proof.
  unfold str, NilZero.string_of_int, NilZero.string_of_uint.
  destruct (Z.to_int i) as [d|d]; destruct d; reflexivity.
Qed.

Lemma str_not s i : starts_decimal s = false -> str i <> s.
Proof. intros Hs E. rewrite <- E, starts_decimal_str in Hs. discriminate. Qed.

(** Joining a plain key and an execution id onto a directory. *)
Lemma join_key_id_shape dir key i :
  plain_key key ->
  join dir [key; str i] = (join_prefix dir +:+ key) +:+ "/" +:+ str i.
Proof.
  intros (Hne & Hstart & Hend). unfold join. cbn [foldl].
  rewrite (join_step_relative dir key Hstart).
  apply join_step_inside.
  - apply append_nonempty_r, Hne.
  - rewrite endswith_sep_append by exact Hne. exact Hend.
  - apply no_sep_startswith, no_sep_str.
Qed.

Lemma join_key_id_inj dir key key' i j :
  plain_key key -> plain_key key' ->
  join dir [key; str i] = join dir [key'; str j] -> key = key' /\ i = j.
Proof.
  intros Hk Hk' E. rewrite !join_key_id_shape in E by assumption.
  apply split_last_sep in E as [E1 E2]; try apply no_sep_str.
  apply String.app_inj in E1. apply str_inj in E2. split; assumption.
Qed.

Lemma join_single a b : join_step a b = join a [b].
Proof. reflexivity. Qed.

Section resolver.
Context {ArtifactType : Type} (is_value_artifact : ArtifactType -> bool).
Context `{FileIO}.

Abbreviation Artifact := (@Artifact ArtifactType).
Abbreviation world := (@world ArtifactType _).
Abbreviation PipelineNode := (@PipelineNode ArtifactType).
Abbreviation OutputsResolver := (@OutputsResolver ArtifactType).
Abbreviation output_dict := (output_dict is_value_artifact).
Abbreviation output_artifact := (output_artifact is_value_artifact).
Abbreviation made := (output_dir_made is_value_artifact).

(** ** The dictionary of [generate_output_artifacts] *)

Lemma dict_get_None {V} key (d : list (string * V)) :
  dict_get key d = None <-> ~ In key (map fst d).
Proof.
  induction d as [|[k v] d IH]; [split; [intros _ [] | reflexivity]|].
  cbn [dict_get map fst]. destruct (String.eqb_spec k key) as [->|Hne].
  - split; [discriminate|]. intros Hk. destruct Hk. left. reflexivity.
  - rewrite IH. split; intros Hk; [intros [E|Hin]; [contradiction | exact (Hk Hin)]|].
    intros Hin. apply Hk. right. exact Hin.
Qed.

(** X9: the dictionary [generate_output_artifacts] returns for an output
    map with pairwise different keys has exactly the declared output keys,
    in the order in which the map yielded them: a key that is not declared
    has no entry (in particular a node without outputs gets the empty
    dictionary), and every entry is a list of exactly one artifact, of the
    declared type. *)
Theorem generate_output_artifacts_keys execution_id (w : world) :
  NoDup (map fst (outputs (_pipeline_node (self_obj w)))) ->
  exists d,
    fst (generate_output_artifacts is_value_artifact execution_id w) = Some d /\
    map fst d = map fst (outputs (_pipeline_node (self_obj w))) /\
    (forall key, dict_get key (outputs (_pipeline_node (self_obj w))) = None ->
                 dict_get key d = None) /\
    (forall key l, dict_get key d = Some l ->
       exists t a, dict_get key (outputs (_pipeline_node (self_obj w))) = Some t /\
                   l = [a] /\ artifact_type a = t) /\
    (outputs (_pipeline_node (self_obj w)) = [] -> d = []).
Proof.
  intros Hnd. rewrite generate_output_artifacts_run. eexists. split; [reflexivity|].
  rewrite (generate_output_artifacts_items is_value_artifact _ _ Hnd).
  split; [|split; [|split]].
  - rewrite map_map. reflexivity.
  - intros key Hk. rewrite dict_get_items, Hk. reflexivity.
  - intros key l. rewrite dict_get_items.
    destruct (dict_get key (outputs (_pipeline_node (self_obj w)))) as [t|]; [|discriminate].
    intros [= <-]. exists t, (output_artifact (self_obj w) execution_id key t).
    repeat split. unfold OutputsUtils.output_artifact, set_name, set_uri, deserialize_artifact,
      isinstance_ValueArtifact. cbn. destruct (is_value_artifact t); reflexivity.
  - intros ->. reflexivity.
Qed.


(** ** Names and uris as identifiers *)

Lemma output_artifact_name (self : OutputsResolver) execution_id key t :
  name (output_artifact self execution_id key t)
  = id (_pipeline_info self) +:+ ":" +:+ _pipeline_run_id self +:+ ":"
    +:+ node_info_id (_pipeline_node self) +:+ ":" +:+ key +:+ ":" +:+ "0".
Proof. reflexivity. Qed.

(** X10: when pipeline id, run id and node id contain no colon, the name
    of an output artifact determines pipeline id, run id, node id and
    output key: two artifacts with the same name agree on all four. *)
Theorem artifact_name_identifies (self1 self2 : OutputsResolver) i1 i2 key1 key2 t1 t2 :
  no_colon (id (_pipeline_info self1)) = true ->
  no_colon (id (_pipeline_info self2)) = true ->
  no_colon (_pipeline_run_id self1) = true ->
  no_colon (_pipeline_run_id self2) = true ->
  no_colon (node_info_id (_pipeline_node self1)) = true ->
  no_colon (node_info_id (_pipeline_node self2)) = true ->
  name (output_artifact self1 i1 key1 t1) = name (output_artifact self2 i2 key2 t2) ->
  id (_pipeline_info self1) = id (_pipeline_info self2) /\
  _pipeline_run_id self1 = _pipeline_run_id self2 /\
  node_info_id (_pipeline_node self1) = node_info_id (_pipeline_node self2) /\
  key1 = key2.
Proof.
  intros Hp1 Hp2 Hr1 Hr2 Hn1 Hn2. rewrite !output_artifact_name. intros E.
  apply split_first_colon in E as [Ep E]; [|assumption..].
  apply split_first_colon in E as [Er E]; [|assumption..].
  apply split_first_colon in E as [En E]; [|assumption..].
  apply (append_inv_r (":" +:+ "0")) in E.
  repeat split; assumption.
Qed.

(** The per-execution directory of a plain key is a proper directory
    path. *)
Lemma key_dir_proper dir key i :
  plain_key key ->
  join dir [key; str i] <> "" /\ endswith_sep (join dir [key; str i]) = false.
Proof.
  intros Hk. rewrite join_key_id_shape by exact Hk. split.
  - apply append_nonempty_r. discriminate.
  - rewrite <- append_assoc, endswith_sep_append by apply str_nonempty.
    apply no_sep_endswith, no_sep_str.
Qed.

Lemma output_artifact_uri (self : OutputsResolver) execution_id key t :
  uri (output_artifact self execution_id key t)
  = if is_value_artifact t
    then join (join (_node_dir self) [key; str execution_id]) [_VALUE_ARTIFACT_FILE_NAME]
    else join (_node_dir self) [key; str execution_id].
Proof.
  unfold OutputsUtils.output_artifact, isinstance_ValueArtifact. cbn.
  destruct (is_value_artifact t); reflexivity.
Qed.

Lemma value_uri_shape dir key i :
  plain_key key ->
  join (join dir [key; str i]) [_VALUE_ARTIFACT_FILE_NAME]
  = join dir [key; str i] +:+ "/" +:+ "value".
Proof.
  intros Hk. destruct (key_dir_proper dir key i Hk) as [Hne Hend].
  apply join_step_inside; [exact Hne | exact Hend | reflexivity].
Qed.

(** X11: for output keys that are not empty, do not start with a
    separator and do not end with one, the uri of an output artifact of a
    resolver determines the output key and the execution id (and whether
    the output is value-typed): different keys or different execution ids
    never share a uri. *)
Theorem artifact_uri_identifies (self : OutputsResolver) i1 i2 key1 key2 t1 t2 :
  plain_key key1 -> plain_key key2 ->
  uri (output_artifact self i1 key1 t1) = uri (output_artifact self i2 key2 t2) ->
  key1 = key2 /\ i1 = i2 /\ is_value_artifact t1 = is_value_artifact t2.
Proof.
  intros Hk1 Hk2. rewrite !output_artifact_uri.
  destruct (is_value_artifact t1), (is_value_artifact t2);
    rewrite ?value_uri_shape by assumption; intros E.
  - apply append_inv_r in E. apply join_key_id_inj in E as [-> ->]; try assumption.
    repeat split.
  - exfalso. rewrite (join_key_id_shape _ key2 i2 Hk2) in E.
    apply split_last_sep in E as [_ E]; [|reflexivity|apply no_sep_str].
    symmetry in E. revert E. apply str_not. reflexivity.
  - exfalso. rewrite (join_key_id_shape _ key1 i1 Hk1) in E.
    apply split_last_sep in E as [_ E]; [|apply no_sep_str|reflexivity].
    revert E. apply str_not. reflexivity.
  - apply join_key_id_inj in E as [-> ->]; try assumption. repeat split.
Qed.

(** X12: an output key that starts with a separator is taken as an
    absolute path: the uri is built from the key and the execution id
    alone, whatever the pipeline root and the node id are. *)
Theorem absolute_key_uri (self : OutputsResolver) execution_id key t :
  startswith_sep key = true ->
  uri (output_artifact self execution_id key t)
  = join key ([str execution_id]
              ++ if is_value_artifact t then [_VALUE_ARTIFACT_FILE_NAME] else []).
Proof.
  intros Hkey. rewrite output_artifact_uri.
  assert (join (_node_dir self) [key; str execution_id] = join key [str execution_id]) as ->.
  { unfold join. cbn [foldl]. unfold join_step at 2. rewrite Hkey. reflexivity. }
  destruct (is_value_artifact t); reflexivity.
Qed.


(** ** [get_executor_output_uri] *)

Lemma get_executor_output_uri_run execution_id (w : world) :
  let dir := executor_output_dir (self_obj w) execution_id in
  get_executor_output_uri execution_id w
  = match fileio_makedirs dir (store w) with
    | Some s' => (Some (join dir [_EXECUTION_OUTPUT_FILE]),
                  mkWorld (self_obj w) s' (calls w ++ [Makedirs dir]) (debug_log w))
    | None => (None, mkWorld (self_obj w) (store w) (calls w ++ [Makedirs dir]) (debug_log w))
    end.
Proof.
  intros dir. unfold get_executor_output_uri, mbind, IO_bind, get_self, makedirs, storage_call.
  fold (executor_output_dir (self_obj w) execution_id). fold dir.
  destruct (fileio_makedirs dir (store w)); reflexivity.
Qed.

Lemma plain_execution : plain_key _EXECUTION.
Proof. repeat split. discriminate. Qed.

Lemma executor_output_uri_shape (self : OutputsResolver) execution_id :
  join (executor_output_dir self execution_id) [_EXECUTION_OUTPUT_FILE]
  = executor_output_dir self execution_id +:+ "/" +:+ "executor_output.pb".
Proof.
  destruct (key_dir_proper (_node_dir self) _EXECUTION execution_id plain_execution)
    as [Hne Hend].
  apply join_step_inside; [exact Hne | exact Hend | reflexivity].
Qed.

Lemma executor_output_uri_dirname (self : OutputsResolver) execution_id :
  dirname (join (executor_output_dir self execution_id) [_EXECUTION_OUTPUT_FILE])
  = executor_output_dir self execution_id.
Proof.
  rewrite executor_output_uri_shape.
  destruct (key_dir_proper (_node_dir self) _EXECUTION execution_id plain_execution)
    as [Hne Hend].
  apply dirname_file; [exact Hne | exact Hend | reflexivity].
Qed.

(** X13: when [get_executor_output_uri] returns, the path is
    [join(pipelineRoot, nodeId, "execution", executionId,
    "executor_output.pb")]; the one storage call made is [makedirs] on the
    directory of that path, which exists afterwards; a second call with
    the same execution id returns too, with the same path; and a call with
    another execution id returns another path. *)
Theorem get_executor_output_uri_stable
    (node : PipelineNode) info spec (w w1 : world) execution_id u :
  self_obj w = __init__ node info spec ->
  get_executor_output_uri execution_id w = (Some u, w1) ->
  u = join (pipeline_root spec)
        [node_info_id node; "execution"; str execution_id; "executor_output.pb"] /\
  dirname u = join (pipeline_root spec) [node_info_id node; "execution"; str execution_id] /\
  calls w1 = calls w ++ [Makedirs (dirname u)] /\
  fileio_isdir (dirname u) (store w1) = true /\
  (exists w2, get_executor_output_uri execution_id w1 = (Some u, w2)) /\
  (forall execution_id' u' w2,
     get_executor_output_uri execution_id' w1 = (Some u', w2) ->
     execution_id' <> execution_id -> u' <> u).
Proof.
  intros Hself Hrun. rewrite get_executor_output_uri_run in Hrun.
  set (dir := executor_output_dir (self_obj w) execution_id) in *.
  destruct (fileio_makedirs dir (store w)) as [s1|] eqn:Hmk; [|discriminate].
  injection Hrun as <- <-.
  pose proof (makedirs_isdir dir (store w) s1 Hmk) as Hdir.
  assert (dirname (join dir [_EXECUTION_OUTPUT_FILE]) = dir) as Hdn
    by apply executor_output_uri_dirname.
  change (join_step dir _EXECUTION_OUTPUT_FILE) with (join dir [_EXECUTION_OUTPUT_FILE]).
  rewrite Hdn. cbn [calls store].
  split; [subst dir; rewrite Hself; reflexivity|].
  split; [subst dir; rewrite Hself; reflexivity|].
  split; [reflexivity|]. split; [exact Hdir|]. split.
  - destruct (makedirs_exist_ok dir s1 Hdir) as [s2 Hmk2].
    eexists. rewrite get_executor_output_uri_run. cbn [self_obj store]. fold dir.
    rewrite Hmk2. reflexivity.
  - intros execution_id' u' w2. rewrite get_executor_output_uri_run. cbn [self_obj store].
    destruct (fileio_makedirs _ s1); [|discriminate]. intros [= <- _] Hne E.
    rewrite join_single in E.
    apply (f_equal dirname) in E. rewrite Hdn, executor_output_uri_dirname in E.
    apply join_key_id_inj in E as [_ E]; [|apply plain_execution..]. contradiction.
Qed.

(** ** Paths of different kinds *)

Lemma output_artifact_basename (self : OutputsResolver) execution_id key t :
  basename (uri (output_artifact self execution_id key t))
  = if is_value_artifact t then "value" else str execution_id.
Proof.
  rewrite output_artifact_uri. destruct (is_value_artifact t).
  - apply basename_join_step. reflexivity.
  - apply (basename_join_step (join_step (_node_dir self) key)), no_sep_str.
Qed.

(** X14: the three kinds of paths of a resolver never coincide: for all
    output keys, artifact types and execution ids, the uri of an output
    artifact is different from every executor output path and from the
    stateful working directory, and these two differ from one another. *)
Theorem output_paths_distinct (w w' w1 w1' : world) execution_id execution_id' key t u d :
  self_obj w' = self_obj w ->
  get_executor_output_uri execution_id' w = (Some u, w1) ->
  get_stateful_working_directory w' = (Some d, w1') ->
  uri (output_artifact (self_obj w) execution_id key t) <> u /\
  uri (output_artifact (self_obj w) execution_id key t) <> d /\
  u <> d.
Proof.
  intros Hself Hu Hd.
  rewrite get_executor_output_uri_run in Hu.
  destruct (fileio_makedirs _ (store w)); [|discriminate]. injection Hu as <- _.
  rewrite get_stateful_working_directory_run in Hd.
  destruct (fileio_makedirs _ (store w')); [|discriminate]. injection Hd as <- _.
  pose proof (output_artifact_basename (self_obj w) execution_id key t) as Hba.
  split; [|split]; intros E; apply (f_equal basename) in E;
    rewrite ?Hba, !basename_join_step in E by reflexivity.
  - destruct (is_value_artifact t); [discriminate|]. revert E. apply str_not. reflexivity.
  - destruct (is_value_artifact t); [discriminate|]. revert E. apply str_not. reflexivity.
  - discriminate.
Qed.

(** X15: the output key ["execution"] is not kept apart from the executor
    output: for an output of that name that is not value-typed, the
    directory [get_executor_output_uri] creates is the uri of the output
    artifact of the same execution id, and the executor output file lies in
    it.  No other output key that is not empty and neither starts nor ends
    with a separator has such a uri, for any execution id. *)
Theorem execution_key_shares_directory (w w1 : world) execution_id t u :
  is_value_artifact t = false ->
  get_executor_output_uri execution_id w = (Some u, w1) ->
  calls w1
  = calls w ++ [Makedirs (uri (output_artifact (self_obj w) execution_id "execution" t))] /\
  u = uri (output_artifact (self_obj w) execution_id "execution" t)
      +:+ "/" +:+ "executor_output.pb" /\
  forall key t' execution_id',
    plain_key key -> key <> "execution" ->
    uri (output_artifact (self_obj w) execution_id' key t')
    <> uri (output_artifact (self_obj w) execution_id "execution" t).
Proof.
  intros Ht Hu. rewrite get_executor_output_uri_run in Hu.
  destruct (fileio_makedirs _ (store w)); [|discriminate]. injection Hu as <- <-.
  assert (uri (output_artifact (self_obj w) execution_id "execution" t)
          = executor_output_dir (self_obj w) execution_id) as Huri.
  { rewrite output_artifact_uri, Ht. reflexivity. }
  rewrite Huri. cbn [calls]. split; [reflexivity|].
  split; [apply executor_output_uri_shape|].
  intros key t' execution_id' Hkey Hne. rewrite output_artifact_uri.
  unfold executor_output_dir. destruct (is_value_artifact t'); intros E.
  - rewrite value_uri_shape in E by exact Hkey.
    rewrite (join_key_id_shape _ _EXECUTION execution_id plain_execution) in E.
    apply split_last_sep in E as [_ E]; [|reflexivity|apply no_sep_str].
    symmetry in E. revert E. apply str_not. reflexivity.
  - apply join_key_id_inj in E as [E _]; [|exact Hkey|apply plain_execution].
    contradiction.
Qed.

(** ** The loops over an output dictionary *)

Lemma for_each_app {A} (l1 l2 : list A) (body : A -> IO unit) (w : world) :
  for_each (l1 ++ l2) body w
  = match for_each l1 body w with
    | (Some _, w1) => for_each l2 body w1
    | (None, w1) => (None, w1)
    end.
Proof.
  revert w. induction l1 as [|x l1 IH]; intros w; [reflexivity|].
  cbn [app for_each]. unfold mbind, IO_bind.
  destruct (body x w) as [[[]|] w1]; [apply IH | reflexivity].
Qed.

(** The two nested loops visit the artifacts of [all_artifacts] in order. *)
Lemma for_each_flat {A} (L : list (string * list A)) (body : A -> IO unit) (w : world) :
  for_each L (fun '(_, l) => for_each l body) w = for_each (flat_map snd L) body w.
Proof.
  revert w. induction L as [|[k l] L IH]; intros w; [reflexivity|].
  cbn [for_each flat_map snd]. rewrite for_each_app. unfold mbind, IO_bind.
  destruct (for_each l body w) as [[[]|] w1]; [apply IH | reflexivity].
Qed.

Lemma make_output_dir_keeps (a : Artifact) (w w' : world) r :
  make_output_dir is_value_artifact a w = (r, w') ->
  forall a0 : Artifact, made a0 (store w) -> made a0 (store w').
Proof.
  unfold make_output_dir. destruct (isinstance_ValueArtifact is_value_artifact a).
  - unfold mbind, IO_bind, makedirs, open_write, storage_call.
    destruct (fileio_makedirs _ (store w)) as [s1|] eqn:Hmk.
    + cbn [store]. destruct (fileio_write _ _ s1) as [s2|] eqn:Hwr; intros [= _ <-] a0 H0;
        cbn [store].
      * apply (made_after_write is_value_artifact a0 _ _ _ Hwr),
              (made_after_makedirs is_value_artifact a0 _ _ _ Hmk), H0.
      * apply (made_after_makedirs is_value_artifact a0 _ _ _ Hmk), H0.
    + intros [= _ <-] a0 H0. exact H0.
  - unfold makedirs, storage_call.
    destruct (fileio_makedirs _ (store w)) as [s1|] eqn:Hmk; intros [= _ <-] a0 H0; cbn [store].
    + apply (made_after_makedirs is_value_artifact a0 _ _ _ Hmk), H0.
    + exact H0.
Qed.

Lemma make_output_dir_fails (a : Artifact) (w w' : world) :
  make_output_dir is_value_artifact a w = (None, w') ->
  exists n, 0 < n /\
    calls w' = calls w ++ take n (output_dir_calls is_value_artifact a).
Proof.
  unfold make_output_dir, output_dir_calls.
  destruct (isinstance_ValueArtifact is_value_artifact a).
  - unfold mbind, IO_bind, makedirs, open_write, storage_call.
    destruct (fileio_makedirs _ (store w)) as [s1|].
    + cbn [store calls self_obj debug_log].
      destruct (fileio_write _ _ s1); [discriminate|]. intros [= <-].
      exists 2. split; [lia|]. cbn [calls take]. rewrite <- app_assoc. reflexivity.
    + intros [= <-]. exists 1. split; [lia|]. reflexivity.
  - unfold makedirs, storage_call.
    destruct (fileio_makedirs _ (store w)); [discriminate|]. intros [= <-].
    exists 1. split; [lia|]. reflexivity.
Qed.

Lemma make_output_dir_list_fails (l : list Artifact) : forall (w w' : world),
  for_each l (make_output_dir is_value_artifact) w = (None, w') ->
  exists created a rest n,
    l = created ++ a :: rest /\ 0 < n /\
    calls w' = calls w ++ flat_map (output_dir_calls is_value_artifact) created
                       ++ take n (output_dir_calls is_value_artifact a) /\
    (forall x, In x created -> made x (store w')) /\
    forall a0 : Artifact, made a0 (store w) -> made a0 (store w').
Proof.
  induction l as [|a l IH]; intros w w'; [discriminate|].
  cbn [for_each]. unfold mbind at 1, IO_bind.
  destruct (make_output_dir is_value_artifact a w) as [[[]|] w1] eqn:E1.
  - pose proof (make_output_dir_ok is_value_artifact a w w1 E1) as (Hc1 & Hm1 & Hk1).
    intros (created & b & rest & n & -> & Hn & Hc & Hm & Hk)%IH.
    exists (a :: created), b, rest, n. split; [reflexivity|]. split; [exact Hn|].
    cbn [flat_map]. rewrite Hc, Hc1, <- !app_assoc. split; [reflexivity|]. split.
    + intros x [<-|Hx]; [apply Hk, Hm1 | apply Hm, Hx].
    + intros a0 H0. apply Hk, Hk1, H0.
  - intros [= <-]. destruct (make_output_dir_fails a w w1 E1) as (n & Hn & Hc).
    exists [], a, l, n. split; [reflexivity|]. split; [exact Hn|].
    split; [exact Hc|]. split; [intros x []|].
    exact (make_output_dir_keeps a w w1 None E1).
Qed.

(** X16: when [make_output_dirs] fails, it stops at the artifact whose
    storage call failed and cleans nothing up: the artifacts that come
    before it in the dictionary (items in the order of the dictionary,
    artifacts in the order of their list) have all their storage calls
    made and their directories and files are in the storage that is left;
    of the failing artifact only the calls up to the failing one were made;
    no call was made for the artifacts after it; and whatever had been
    created before the call is still there. *)
Theorem make_output_dirs_failure (output_dict : list (string * list Artifact))
    (w w' : world) :
  make_output_dirs is_value_artifact output_dict w = (None, w') ->
  exists created a rest n,
    all_artifacts output_dict = created ++ a :: rest /\ 0 < n /\
    calls w' = calls w ++ flat_map (output_dir_calls is_value_artifact) created
                       ++ take n (output_dir_calls is_value_artifact a) /\
    (forall x, In x created -> made x (store w')) /\
    forall a0 : Artifact, made a0 (store w) -> made a0 (store w').
Proof.
  unfold make_output_dirs. rewrite for_each_flat. apply make_output_dir_list_fails.
Qed.

(** ** [remove_output_dirs] *)

Lemma remove_output_dir_ok (a : Artifact) (w w' : world) :
  remove_output_dir a w = (Some tt, w') ->
  calls w' = calls w ++ remove_dir_calls (a, fileio_isdir (uri a) (store w)) /\
  (if fileio_isdir (uri a) (store w)
   then fileio_rmtree (uri a) (store w)
   else fileio_remove (uri a) (store w)) = Some (store w').
Proof.
  unfold remove_output_dir, mbind, IO_bind, isdir, remove_dir_calls. cbn [fst snd].
  intros Hrun.
  destruct (fileio_isdir (uri a) (store w));
    unfold rmtree, remove, storage_call in Hrun; cbn [store calls self_obj debug_log] in Hrun.
  - destruct (fileio_rmtree _ _); [|discriminate]. injection Hrun as <-. cbn [calls store].
    rewrite <- app_assoc. split; reflexivity.
  - destruct (fileio_remove _ _); [|discriminate]. injection Hrun as <-. cbn [calls store].
    rewrite <- app_assoc. split; reflexivity.
Qed.

Lemma remove_output_dir_list_ok (l : list Artifact) : forall (w w' : world),
  for_each l remove_output_dir w = (Some tt, w') ->
  calls w' = calls w ++ flat_map remove_dir_calls (zip l (isdir_answers l (store w))).
Proof.
  induction l as [|a l IH]; intros w w'.
  - intros [= <-]. cbn. rewrite app_nil_r. reflexivity.
  - cbn [for_each]. unfold mbind at 1, IO_bind.
    destruct (remove_output_dir a w) as [[[]|] w1] eqn:E1; [|discriminate].
    destruct (remove_output_dir_ok a w w1 E1) as [Hc1 Hs1].
    intros Hc%IH. cbn [isdir_answers]. rewrite Hs1.
    cbn [zip zip_with flat_map]. rewrite Hc, Hc1, <- app_assoc. reflexivity.
Qed.

(** X17: when [remove_output_dirs] returns, its storage calls are, for
    each artifact of the dictionary in order (items in the order of the
    dictionary, artifacts in the order of their list), one [isdir] on the
    uri of the artifact followed by one removal of that same uri, [rmtree]
    when [isdir] answered true and [remove] when it answered false, where
    the answer is that of the storage as the removals before have left it;
    and nothing else: no path but the uris themselves is touched (for a
    value artifact the file, not its directory) and nothing is created. *)
Theorem remove_output_dirs_calls (output_dict : list (string * list Artifact))
    (w w' : world) :
  remove_output_dirs output_dict w = (Some tt, w') ->
  calls w' = calls w ++ flat_map remove_dir_calls
                          (zip (all_artifacts output_dict)
                               (isdir_answers (all_artifacts output_dict) (store w))).
Proof.
  unfold remove_output_dirs. rewrite for_each_flat. apply remove_output_dir_list_ok.
Qed.

End resolver.

(** ** The examples, run on the in-memory storage *)

(** Without the condition of X10 names do collide: pipeline ["a:b"] with
    run ["c"] and pipeline ["a"] with run ["b:c"] give the same name. *)
Example artifact_names_collide :
  format_name "a:b" "c" "Trainer" "model" 0 = format_name "a" "b:c" "Trainer" "model" 0.
Proof. reflexivity. Qed.

(** Without the condition of X11 uris do collide: the keys ["model"] and
    ["model/"] give the same uri. *)
Example artifact_uris_collide :
  uri (output_artifact example_is_value trainer 7 "model" Model)
  = uri (output_artifact example_is_value trainer 7 "model/" Model).
Proof. reflexivity. Qed.

Lemma plain_model : plain_key "model".
Proof. repeat split. discriminate. Qed.

Lemma generate_output_artifacts_keys_witness :
  exists d,
    fst (generate_output_artifacts example_is_value 7 trainer_world) = Some d /\
    map fst d = ["model"; "accuracy"] /\
    (forall key, dict_get key (outputs trainer_node) = None -> dict_get key d = None) /\
    (forall key l, dict_get key d = Some l ->
       exists t a, dict_get key (outputs trainer_node) = Some t /\
                   l = [a] /\ artifact_type a = t) /\
    (outputs trainer_node = [] -> d = []).
Proof. exact (generate_output_artifacts_keys example_is_value 7 trainer_world trainer_node_keys). Defined.

Lemma artifact_name_identifies_witness :
  name (output_artifact example_is_value trainer 7 "model" Model)
  = name (output_artifact example_is_value trainer 8 "model" Integer) /\
  id (_pipeline_info trainer) = "p" /\ "model" = "model".
Proof.
  split; [reflexivity|].
  destruct (artifact_name_identifies example_is_value trainer trainer 7 8 "model" "model"
              Model Integer eq_refl eq_refl eq_refl eq_refl eq_refl eq_refl eq_refl)
    as (_ & _ & _ & Hkey).
  split; [reflexivity | exact Hkey].
Defined.

Lemma artifact_uri_identifies_witness :
  uri (output_artifact example_is_value trainer 7 "model" Model) = "root/Trainer/model/7" /\
  "model" = "model" /\ 7%Z = 7%Z /\ example_is_value Model = example_is_value Model.
Proof.
  split; [reflexivity|].
  exact (artifact_uri_identifies example_is_value trainer 7 7 "model" "model" Model Model
           plain_model plain_model eq_refl).
Defined.

Lemma absolute_key_uri_witness :
  uri (output_artifact example_is_value trainer 7 "/tmp/model" Integer) = "/tmp/model/7/value" /\
  uri (output_artifact example_is_value trainer 7 "/tmp/model" Integer)
  = join "/tmp/model" [str 7; "value"].
Proof.
  split; [reflexivity|].
  exact (absolute_key_uri example_is_value trainer 7 "/tmp/model" Integer eq_refl).
Defined.

Lemma get_executor_output_uri_stable_witness :
  fst (get_executor_output_uri 7 trainer_world)
  = Some "root/Trainer/execution/7/executor_output.pb" /\
  calls (snd (get_executor_output_uri 7 trainer_world))
  = [Makedirs "root/Trainer/execution/7"] /\
  fileio_isdir "root/Trainer/execution/7"
    (store (snd (get_executor_output_uri 7 trainer_world))) = true.
Proof.
  destruct (get_executor_output_uri_stable trainer_node
              (mkPipelineInfo "p") (mkPipelineRuntimeSpec "root" "r1")
              trainer_world (snd (get_executor_output_uri 7 trainer_world)) 7
              "root/Trainer/execution/7/executor_output.pb" eq_refl eq_refl)
    as (_ & _ & Hcalls & Hdir & _).
  split; [reflexivity|]. split; [exact Hcalls | exact Hdir].
Defined.

Lemma output_paths_distinct_witness :
  uri (output_artifact example_is_value trainer 7 "model" Model)
  <> "root/Trainer/execution/8/executor_output.pb" /\
  uri (output_artifact example_is_value trainer 7 "model" Model)
  <> "root/Trainer/r1/stateful_working_dir" /\
  "root/Trainer/execution/8/executor_output.pb" <> "root/Trainer/r1/stateful_working_dir".
Proof.
  exact (output_paths_distinct example_is_value trainer_world trainer_world
           (snd (get_executor_output_uri 8 trainer_world))
           (snd (get_stateful_working_directory trainer_world))
           7 8 "model" Model
           "root/Trainer/execution/8/executor_output.pb"
           "root/Trainer/r1/stateful_working_dir" eq_refl eq_refl eq_refl).
Defined.

Lemma execution_key_shares_directory_witness :
  uri (output_artifact example_is_value evaluator 7 "execution" Model)
  = "root/Evaluator/execution/7" /\
  calls (snd (get_executor_output_uri 7 evaluator_world))
  = [Makedirs (uri (output_artifact example_is_value evaluator 7 "execution" Model))] /\
  "root/Evaluator/execution/7/executor_output.pb"
  = uri (output_artifact example_is_value evaluator 7 "execution" Model)
    +:+ "/" +:+ "executor_output.pb".
Proof.
  destruct (execution_key_shares_directory example_is_value evaluator_world
              (snd (get_executor_output_uri 7 evaluator_world)) 7 Model
              "root/Evaluator/execution/7/executor_output.pb" eq_refl eq_refl)
    as (Hcalls & Hfile & _).
  split; [reflexivity|]. split; [exact Hcalls | exact Hfile].
Defined.

(** The output map yields ["accuracy"] first: [make_output_dirs] fails at
    the first artifact, after the one call. *)
Lemma make_output_dirs_failure_witness :
  let d := default [] (fst (generate_output_artifacts example_is_value 7
                              blocked_world_accuracy_first)) in
  let w' := snd (make_output_dirs example_is_value d blocked_world_accuracy_first) in
  map fst d = ["accuracy"; "model"] /\
  make_output_dirs example_is_value d blocked_world_accuracy_first
  = (None, mkWorld trainer_accuracy_first (store blocked_world_accuracy_first)
             [Makedirs "root/Trainer/accuracy/7"] []) /\
  exists created a rest n,
    all_artifacts d = created ++ a :: rest /\ 0 < n /\
    calls w' = flat_map (output_dir_calls example_is_value) created
               ++ take n (output_dir_calls example_is_value a) /\
    (forall x, In x created -> output_dir_made example_is_value x (store w')) /\
    forall a0, output_dir_made example_is_value a0 (store blocked_world_accuracy_first) ->
               output_dir_made example_is_value a0 (store w').
Proof.
  intros d w'. split; [reflexivity|]. split; [reflexivity|].
  exact (make_output_dirs_failure example_is_value d blocked_world_accuracy_first w' eq_refl).
Defined.

Lemma remove_output_dirs_calls_witness :
  let d := default [] (fst (generate_output_artifacts example_is_value 7 trainer_world)) in
  let w := snd (make_output_dirs example_is_value d trainer_world) in
  let w' := snd (remove_output_dirs d w) in
  fst (remove_output_dirs d w) = Some tt /\
  isdir_answers (all_artifacts d) (store w) = [true; false] /\
  calls w' = calls w ++ [Isdir "root/Trainer/model/7" true; Rmtree "root/Trainer/model/7";
                         Isdir "root/Trainer/accuracy/7/value" false;
                         Remove "root/Trainer/accuracy/7/value"].
Proof.
  intros d w w'. split; [reflexivity|]. split; [reflexivity|].
  exact (remove_output_dirs_calls d w w' eq_refl).
Defined.

End OutputsUtilsExtras.
